(** * WellEats: the dish details screen (app/details/[id].tsx)

    A shallow embedding of the resolution-and-enrichment code of
    [DetailsScreen]: the local-first lookup of a dish, the history and
    favorites lists kept in AsyncStorage, the extraction of the twenty
    ingredient slots of a remote dish and their enrichment with nutrition
    and allergen data.

    JavaScript values are modelled as follows.
    - A string is the list of its UTF-16 code units ([jsstring]); [js]
      injects an ASCII literal.
    - A number that is only copied around (nutrition figures) is a [Q];
      [Date.now()] is a [Z] (milliseconds).
    - An exception value is an [Error].
    - The dynamically keyed properties of a remote dish
      ([dish[`strIngredient${i}`]]) are a [gmap] from property name to
      string; a property that is absent, [null] or [undefined] has no entry
      (the code reads them only through [?.trim()], which maps all three to
      [undefined]).
    - What AsyncStorage holds under a key is the parsed list: the records
      written are flat, so [JSON.parse (JSON.stringify l)] is [l].
    - The collaborators (local data set, remote API, AsyncStorage, clock)
      are an environment; every remote call and every storage access may
      be rejected by it. *)

From Stdlib Require Import ZArith NArith QArith String Ascii.
From stdpp Require Import base option list sorting gmap strings pretty.

Local Open Scope string_scope.
Local Open Scope Z_scope.
Local Open Scope nat_scope.
Local Open Scope list_scope.

(** ** JavaScript strings *)

Module JS.

Definition jsstring : Type := list N.

Definition js (s : string) : jsstring :=
  (λ c, N_of_ascii c) <$> list_ascii_of_string s.

(** ECMAScript [WhiteSpace] and [LineTerminator] code points, the ones
    [String.prototype.trim] strips. *)
Definition isWhiteSpace (c : N) : bool :=
  ((c =? 0x0009) || (c =? 0x000A) || (c =? 0x000B) || (c =? 0x000C)
   || (c =? 0x000D) || (c =? 0x0020) || (c =? 0x00A0) || (c =? 0x1680)
   || ((0x2000 <=? c) && (c <=? 0x200A))
   || (c =? 0x2028) || (c =? 0x2029) || (c =? 0x202F) || (c =? 0x205F)
   || (c =? 0x3000) || (c =? 0xFEFF))%N.

Fixpoint trimStart (s : jsstring) : jsstring :=
  match s with
  | c :: s' => if isWhiteSpace c then trimStart s' else s
  | [] => []
  end.

Definition trimEnd (s : jsstring) : jsstring :=
  reverse (trimStart (reverse s)).

Definition trim (s : jsstring) : jsstring := trimEnd (trimStart s).

(** [if (s)] on a value that is a string or [undefined]. *)
Definition truthy (v : option jsstring) : bool :=
  match v with
  | Some (_ :: _) => true
  | _ => false
  end.

End JS.
Import JS.

(** ** Data *)

Inductive Error : Type := Err (msg : string).

Record Nutrition : Type := mkNutrition {
  calories : Q;
  protein  : Q;
  fat      : Q;
  sugars   : Q;
  sodium   : Q;
}.

(** [type IngredientInfo]; [measure] is [undefined] when the slot has no
    [strMeasure] property. *)
Record IngredientInfo : Type := mkIngredientInfo {
  name      : jsstring;
  measure   : option jsstring;
  nutrition : Nutrition;
  allergens : list jsstring;
}.

(** [Meal] of services/localData, as far as this screen reads it. *)
Record MealNutrition : Type := mkMealNutrition {
  m_calories : Q;
  m_protein  : Q;
  m_fat      : Q;
  m_carbs    : Q;
}.

Record Meal : Type := mkMeal {
  m_id          : jsstring;
  m_name        : jsstring;
  thumbnail     : jsstring;
  instructions  : jsstring;
  category      : jsstring;
  m_ingredients : list jsstring;
  m_nutrition   : MealNutrition;
}.

(** The [dish] state: the object built from a local meal (lines 62-67) or
    the object returned by [getMealDetails]. *)
Record Dish : Type := mkDish {
  idMeal          : jsstring;
  strMeal         : jsstring;
  strMealThumb    : jsstring;
  strInstructions : jsstring;
  props           : gmap string jsstring;
}.

(** An entry of the FAVORITES list and of the HISTORY list. *)
Record FavoriteEntry : Type := mkFav {
  f_idMeal       : jsstring;
  f_strMeal      : jsstring;
  f_strMealThumb : jsstring;
}.

Record HistoryEntry : Type := mkHist {
  h_idMeal       : jsstring;
  h_strMeal      : jsstring;
  h_strMealThumb : jsstring;
  viewedAt       : Z;
}.

Definition MAX_HISTORY : nat := 50.

(** ** Ingredient slots (lines 153-158) *)

Record Slot : Type := mkSlot {
  s_name    : jsstring;
  s_measure : option jsstring;
}.

(** [dish[`strIngredient${i}`]?.trim()] and [dish[`strMeasure${i}`]?.trim()]. *)
Definition ingredientAt (dish : Dish) (i : nat) : option jsstring :=
  trim <$> props dish !! ("strIngredient" +:+ pretty i).

Definition measureAt (dish : Dish) (i : nat) : option jsstring :=
  trim <$> props dish !! ("strMeasure" +:+ pretty i).

(** The body of the [for] loop: [n] iterations are left, [i] is the loop
    counter, [acc] the array [list] being pushed to. *)
Fixpoint slotLoop (dish : Dish) (n i : nat) (acc : list Slot) : list Slot :=
  match n with
  | O => acc
  | S n' =>
      let name := ingredientAt dish i in
      let measure := measureAt dish i in
      let acc' :=
        match name with
        | Some s => if truthy name then acc ++ [mkSlot s measure] else acc
        | None => acc
        end in
      slotLoop dish n' (S i) acc'
  end.

(** [for (let i = 1; i <= 20; i++)]. *)
Definition extractSlots (dish : Dish) : list Slot := slotLoop dish 20 1 [].

(** The same, in the words of the specification: the slots 1 to 20 in
    ascending order, those with an empty or absent trimmed name left out. *)
Definition nonBlank (dish : Dish) (i : nat) : bool := truthy (ingredientAt dish i).

Definition slotAt (dish : Dish) (i : nat) : Slot :=
  mkSlot (default [] (ingredientAt dish i)) (measureAt dish i).

Definition slotsInOrder (dish : Dish) : list Slot :=
  slotAt dish <$> filter (λ i, nonBlank dish i = true) (seq 1 20).


(** ** Effects

    The asynchronous code is written in a small free monad: a program
    either returns, throws, or performs a call and goes on with its answer,
    which is a value or an exception ([await] of a promise that fulfils or
    rejects; the React setters, [console.error] and [Date.now] are calls
    that always succeed). *)

Inductive Key : Type := FAVORITES_KEY | HISTORY_KEY.

Definition Stored (k : Key) : Type :=
  match k with
  | FAVORITES_KEY => list FavoriteEntry
  | HISTORY_KEY => list HistoryEntry
  end.

Inductive Event : Type → Type :=
  | GetMealDetails (i : jsstring) : Event Dish
  | GetNutritionByIngredient (n : jsstring) : Event Nutrition
  | GetAllergenFlags (n : jsstring) : Event (list jsstring)
  | GetItem (k : Key) : Event (option (Stored k))
  | SetItem (k : Key) (v : Stored k) : Event unit
  | DateNow : Event Z
  | SetLocalMeal (m : Meal) : Event unit
  | SetDish (d : Dish) : Event unit
  | SetIsFavorite (b : bool) : Event unit
  | SetLoadingLocal (b : bool) : Event unit
  | SetLoadingDish (b : bool) : Event unit
  | ConsoleError (e : Error) : Event unit.

Inductive Prog (A : Type) : Type :=
  | Ret (a : A)
  | Throw (e : Error)
  | Call {X : Type} (c : Event X) (k : Error + X → Prog A).

Arguments Ret {A} a.
Arguments Throw {A} e.
Arguments Call {A X} c k.

Fixpoint bind {A B} (p : Prog A) (f : A → Prog B) : Prog B :=
  match p with
  | Ret a => f a
  | Throw e => Throw e
  | Call c k => Call c (λ r, bind (k r) f)
  end.

(** [try { p } catch (e) { h e }] *)
Fixpoint tryCatch {A} (p : Prog A) (h : Error → Prog A) : Prog A :=
  match p with
  | Ret a => Ret a
  | Throw e => h e
  | Call c k => Call c (λ r, tryCatch (k r) h)
  end.

(** [try { p } finally { q }] *)
Fixpoint tryFinally {A} (p : Prog A) (q : Prog unit) : Prog A :=
  match p with
  | Ret a => bind q (λ _, Ret a)
  | Throw e => bind q (λ _, Throw e)
  | Call c k => Call c (λ r, tryFinally (k r) q)
  end.

(** [await c]: the value of a fulfilled promise, or its rejection thrown. *)
Definition await {X} (c : Event X) : Prog X :=
  Call c (λ r, match r with inl e => Throw e | inr x => Ret x end).

(** stdpp's monad notations: [x ← p; q] and [p;; q]. *)
Global Instance Prog_bind : MBind Prog := λ A B f p, bind p f.
Global Instance Prog_ret : MRet Prog := λ A a, Ret a.

(** A call with its answer type forgotten, for logs of calls. *)
Inductive Invocation : Type :=
  | Invoked {X : Type} (c : Event X).

Definition isRemote (c : Invocation) : bool :=
  match c with
  | Invoked (GetMealDetails _) => true
  | Invoked (GetNutritionByIngredient _) => true
  | Invoked (GetAllergenFlags _) => true
  | _ => false
  end.

Definition isStorage (c : Invocation) : bool :=
  match c with
  | Invoked (GetItem _) => true
  | Invoked (SetItem _ _) => true
  | _ => false
  end.

(** ** The world a program runs in *)

(** The collaborators: the local data set, the remote API (each call
    fulfils or rejects), AsyncStorage (a read or write of a key may
    reject; a stored string that does not parse counts as a rejected read)
    and the clock. *)
Record Env : Type := mkEnv {
  getMealById              : jsstring → option Meal;
  getMealDetails           : jsstring → Error + Dish;
  getNutritionByIngredient : jsstring → Error + Nutrition;
  getAllergenFlags         : jsstring → Error + list jsstring;
  getItemFault             : Key → option Error;
  setItemFault             : Key → option Error;
  dateNow                  : Z;
}.

(** The [useState] cells the first effect and [toggleFavorite] write
    ([ingredients] and [loadingNutrition] are written by the second effect
    only, from the value of [Promise.all]). *)
Record Ui : Type := mkUi {
  dish         : option Dish;
  loadingDish  : bool;
  isFavorite   : bool;
  localMeal    : option Meal;
  loadingLocal : bool;
}.

Definition initialUi : Ui := mkUi None true false None true.

Record World : Type := mkWorld {
  favorites : option (list FavoriteEntry);
  history   : option (list HistoryEntry);
  ui        : Ui;
  console   : list Error;
  calls     : list Invocation;
}.

Definition getItem (k : Key) (w : World) : option (Stored k) :=
  match k with
  | FAVORITES_KEY => favorites w
  | HISTORY_KEY => history w
  end.

Definition setItem (k : Key) : Stored k → World → World :=
  match k with
  | FAVORITES_KEY => λ v w, mkWorld (Some v) (history w) (ui w) (console w) (calls w)
  | HISTORY_KEY => λ v w, mkWorld (favorites w) (Some v) (ui w) (console w) (calls w)
  end.

Definition setUi (f : Ui → Ui) (w : World) : World :=
  mkWorld (favorites w) (history w) (f (ui w)) (console w) (calls w).

Definition logCall (c : Invocation) (w : World) : World :=
  mkWorld (favorites w) (history w) (ui w) (console w) (calls w ++ [c]).

Definition handle (env : Env) {X} (c : Event X) (w : World) : World * (Error + X) :=
  match c in Event X return World * (Error + X) with
  | GetMealDetails i => (w, getMealDetails env i)
  | GetNutritionByIngredient n => (w, getNutritionByIngredient env n)
  | GetAllergenFlags n => (w, getAllergenFlags env n)
  | GetItem k =>
      match getItemFault env k with
      | Some e => (w, inl e)
      | None => (w, inr (getItem k w))
      end
  | SetItem k v =>
      match setItemFault env k with
      | Some e => (w, inl e)
      | None => (setItem k v w, inr ())
      end
  | DateNow => (w, inr (dateNow env))
  | SetLocalMeal m =>
      (setUi (λ u, mkUi (dish u) (loadingDish u) (isFavorite u) (Some m) (loadingLocal u)) w, inr ())
  | SetDish d =>
      (setUi (λ u, mkUi (Some d) (loadingDish u) (isFavorite u) (localMeal u) (loadingLocal u)) w, inr ())
  | SetIsFavorite b =>
      (setUi (λ u, mkUi (dish u) (loadingDish u) b (localMeal u) (loadingLocal u)) w, inr ())
  | SetLoadingLocal b =>
      (setUi (λ u, mkUi (dish u) (loadingDish u) (isFavorite u) (localMeal u) b) w, inr ())
  | SetLoadingDish b =>
      (setUi (λ u, mkUi (dish u) b (isFavorite u) (localMeal u) (loadingLocal u)) w, inr ())
  | ConsoleError e =>
      (mkWorld (favorites w) (history w) (ui w) (console w ++ [e]) (calls w), inr ())
  end.

(** Running a sequential program: every call is logged, answered by the
    environment, and the program goes on. The result is the value returned
    or the exception that escaped. *)
Fixpoint run {A} (env : Env) (p : Prog A) (w : World) : World * (Error + A) :=
  match p with
  | Ret a => (w, inr a)
  | Throw e => (w, inl e)
  | Call c k =>
      let '(w', r) := handle env c (logCall (Invoked c) w) in
      run env (k r) w'
  end.

(** ** Array helpers *)

(** [l.slice(start, end)] for indices within [0, length]. *)
Definition slice {A} (start stop : nat) (l : list A) : list A :=
  take (stop - start) (drop start l).

(** [l.some(p)] *)
Definition some {A} (p : A → bool) (l : list A) : bool := existsb p l.

(** [a === b] on strings. *)
Definition strictEq (a b : jsstring) : bool := bool_decide (a = b).

(** ** History (lines 74-90 and 108-123)

    Both branches of the first effect record the view with the same code,
    on [m.id, m.name, m.thumbnail] and on [data.idMeal, data.strMeal,
    data.strMealThumb]; [recordView] is that code after the list was read:
    [now] is the value of [Date.now()]. *)
Definition recordView (now : Z) (i n t : jsstring) (histList : list HistoryEntry)
    : list HistoryEntry :=
  let newEntry := mkHist i n t now in
  let histList := newEntry :: filter (λ h, h_idMeal h ≠ i) histList in
  if decide (MAX_HISTORY < length histList)
  then slice 0 MAX_HISTORY histList
  else histList.

(** [json ? JSON.parse(json) : []] after [await AsyncStorage.getItem(k)]. *)
Definition noEntries (k : Key) : Stored k :=
  match k with
  | FAVORITES_KEY => []
  | HISTORY_KEY => []
  end.

Definition readList (k : Key) : Prog (Stored k) :=
  json ← await (GetItem k);
  mret (match json with Some l => l | None => noEntries k end).

(** [favList.some(f => f.idMeal === i)] *)
Definition isFavoriteIn (i : jsstring) (favList : list FavoriteEntry) : bool :=
  some (λ f, strictEq (f_idMeal f) i) favList.

(** Favorite check and history record, as both branches do them. *)
Definition checkAndRecord (i n t : jsstring) : Prog unit :=
  favList ← readList FAVORITES_KEY;
  await (SetIsFavorite (isFavoriteIn i favList));;
  histList ← readList HISTORY_KEY;
  now ← await DateNow;
  await (SetItem HISTORY_KEY (recordView now i n t histList)).

(** ** The first effect (lines 55-130) *)

Definition localDish (m : Meal) : Dish :=
  mkDish (m_id m) (m_name m) (thumbnail m) (instructions m) ∅.

Definition resolveEffect (env : Env) (i : jsstring) : Prog unit :=
  match getMealById env i with
  | Some m =>
      await (SetLocalMeal m);;
      await (SetDish (localDish m));;
      checkAndRecord (m_id m) (m_name m) (thumbnail m);;
      await (SetLoadingLocal false)
  | None =>
      tryFinally
        (tryCatch
           (data ← await (GetMealDetails i);
            await (SetDish data);;
            checkAndRecord (idMeal data) (strMeal data) (strMealThumb data))
           (λ e, await (ConsoleError e)))
        (await (SetLoadingDish false))
  end.

(** ** toggleFavorite (lines 133-147)

    The closure reads [isFavorite] and [dish] of the render it was created
    in; the button that calls it is rendered only once [dish] is set. The
    function has no [return] statement: its promise fulfils with
    [undefined]. *)
Inductive JsValue : Type :=
  | JsUndefined
  | JsBoolean (b : bool).

Definition toggleFavorite (isFavorite : bool) (dish : Dish) : Prog JsValue :=
  list ← readList FAVORITES_KEY;
  let list :=
    if isFavorite
    then filter (λ f, f_idMeal f ≠ idMeal dish) list
    else list ++ [mkFav (idMeal dish) (strMeal dish) (strMealThumb dish)] in
  await (SetItem FAVORITES_KEY list);;
  await (SetIsFavorite (negb isFavorite));;
  mret JsUndefined.

(** Pressing the favorite button in the current render. *)
Definition pressFavorite (env : Env) (d : Dish) (w : World) : World * (Error + JsValue) :=
  run env (toggleFavorite (isFavorite (ui w)) d) w.

(** ** Enrichment (lines 150-178) *)

Definition zeroNutrition : Nutrition := mkNutrition 0 0 0 0 0.

Definition degraded (s : Slot) : IngredientInfo :=
  mkIngredientInfo (s_name s) (s_measure s) zeroNutrition [].

(** The [async ({ name, measure }) => { try ... catch ... }] mapped over
    the slots. *)
Definition enrichOne (s : Slot) : Prog IngredientInfo :=
  tryCatch
    (nut ← await (GetNutritionByIngredient (s_name s));
     aler ← await (GetAllergenFlags (s_name s));
     mret (mkIngredientInfo (s_name s) (s_measure s) nut aler))
    (λ _, mret (degraded s)).

(** ** Promise.all over the mapped async functions

    [list.map(async ...)] starts every function: each runs up to its first
    [await] and hands back a promise. From then on the functions advance
    one at a time, when the answer to the call one of them awaits arrives;
    the order of the answers is the scheduler's. A pool keeps, per promise,
    what is left of its function, the log of the calls issued (with the
    index of the issuing function), and the state of the promise of
    [Promise.all]: pending ([None]), rejected with the first rejection, or
    fulfilled with all the values in the order of the array. *)

Record Pool (A : Type) : Type := mkPool {
  tasks   : list (Prog A);
  issued  : list (nat * Invocation);
  outcome : option (Error + list A);
}.

Arguments mkPool {A} tasks issued outcome.
Arguments tasks {A} p.
Arguments issued {A} p.
Arguments outcome {A} p.

Definition pendingCall {A} (p : Prog A) : option Invocation :=
  match p with
  | Call c _ => Some (Invoked c)
  | _ => None
  end.

Definition fulfilled {A} (p : Prog A) : option A :=
  match p with
  | Ret a => Some a
  | _ => None
  end.

Definition rejected {A} (p : Prog A) : option Error :=
  match p with
  | Throw e => Some e
  | _ => None
  end.

Definition allFulfilled {A} (ts : list (Prog A)) : option (list A) :=
  mapM fulfilled ts.

(** The calls the functions issue while being started, from index [k] on. *)
Fixpoint startCalls {A} (k : nat) (ps : list (Prog A)) : list (nat * Invocation) :=
  match ps with
  | [] => []
  | p :: ps' =>
      match pendingCall p with
      | Some c => (k, c) :: startCalls (S k) ps'
      | None => startCalls (S k) ps'
      end
  end.

Definition startAll {A} (ps : list (Prog A)) : Pool A :=
  mkPool ps (startCalls 0 ps)
    match head (omap rejected ps) with
    | Some e => Some (inl e)
    | None => inr <$> allFulfilled ps
    end.

(** What the environment answers to the calls of the function at each
    index. *)
Definition Oracle : Type := nat → ∀ X, Event X → Error + X.

(** The answer to the call awaited by function [i] arrives. *)
Definition deliver {A} (answer : Oracle) (i : nat) (st : Pool A) : Pool A :=
  match tasks st !! i with
  | Some (Call c k) =>
      let p := k (answer i _ c) in
      let ts := <[i := p]> (tasks st) in
      mkPool ts
        (issued st ++ match pendingCall p with Some c' => [(i, c')] | None => [] end)
        match outcome st with
        | Some o => Some o
        | None =>
            match p with
            | Throw e => Some (inl e)
            | Ret _ => inr <$> allFulfilled ts
            | Call _ _ => None
            end
        end
  | _ => st
  end.

Definition runSchedule {A} (answer : Oracle) (sched : list nat) (st : Pool A) : Pool A :=
  foldl (λ st i, deliver answer i st) st sched.

(** The call function [i] is waiting for, if any. *)
Definition inFlight {A} (st : Pool A) (i : nat) : option Invocation :=
  tasks st !! i ≫= pendingCall.

(** The second effect: [if (!dish || localMeal) return;], else the slots
    are extracted and the enrichment functions started. *)
Definition enrichEffect (u : Ui) : option (Pool IngredientInfo) :=
  match dish u, localMeal u with
  | Some d, None => Some (startAll (enrichOne <$> extractSlots d))
  | _, _ => None
  end.


(** A sequence of views, recorded one after the other. *)
Record View : Type := mkView {
  v_now   : Z;
  v_id    : jsstring;
  v_name  : jsstring;
  v_thumb : jsstring;
}.

Definition entryOf (v : View) : HistoryEntry :=
  mkHist (v_id v) (v_name v) (v_thumb v) (v_now v).

Definition recordViews (views : list View) (histList : list HistoryEntry)
    : list HistoryEntry :=
  foldl (λ h v, recordView (v_now v) (v_id v) (v_name v) (v_thumb v) h) histList views.

(** The invariant of the history list: one entry per identifier, [viewedAt]
    strictly decreasing from the front, at most [MAX_HISTORY] entries. *)
Definition newerThan (a b : HistoryEntry) : Prop := (viewedAt b < viewedAt a)%Z.

Definition HistoryInv (h : list HistoryEntry) : Prop :=
  NoDup (h_idMeal <$> h) ∧ StronglySorted newerThan h ∧ length h ≤ MAX_HISTORY.

(** ** Notions used in the statements, and example data *)

(** A dish whose only non-blank names are in slots 1, 5 and 20; slot 3
    holds blanks, slots 1 and 20 name the same ingredient. *)
Definition slotsExample : Dish :=
  mkDish (js "52772") (js "Teriyaki") (js "t.jpg") (js "Cook.")
    (<["strIngredient1" := js " soy sauce "]>
       (<["strMeasure1" := js "3/4 cup"]>
          (<["strIngredient3" := js "  "]>
             (<["strIngredient5" := js "water"]>
                (<["strIngredient20" := js "soy sauce"]> ∅))))).

(** Fifty-one views of distinct dishes, one per millisecond. *)
Definition fiftyOneViews : list View :=
  (λ k, mkView (Z.of_nat k) (js (pretty k)) (js "dish") (js "thumb")) <$> seq 0 51.

(** A local meal and a remote dish under the same identifier. *)
Definition jollof : Meal :=
  mkMeal (js "7") (js "Jollof") (js "jollof.png") (js "Steam the rice.")
    (js "Lunch") [js "rice"; js "tomato"] (mkMealNutrition 350 8 9 60).

Definition remoteSeven : Dish :=
  mkDish (js "7") (js "Remote seven") (js "r.jpg") (js "Unknown.")
    (<["strIngredient1" := js "salt"]> ∅).

Definition bothSources : Env :=
  mkEnv (λ i, if decide (i = js "7") then Some jollof else None)
        (λ i, if decide (i = js "7") then inr remoteSeven else inl (Err "not found"))
        (λ _, inl (Err "offline")) (λ _, inl (Err "offline"))
        (λ _, None) (λ _, None) 1000.

Definition freshWorld : World := mkWorld None None initialUi [] [].

(** Programs that never make a call of some kind, whatever they are
    answered. *)
Fixpoint avoids {A} (bad : Invocation → bool) (p : Prog A) : Prop :=
  match p with
  | Call c k => bad (Invoked c) = false ∧ ∀ r, avoids bad (k r)
  | _ => True
  end.

Definition isDishSetter (c : Invocation) : bool :=
  match c with
  | Invoked (SetDish _) => true
  | Invoked (SetLocalMeal _) => true
  | _ => false
  end.

Definition storedFavorites (w : World) : list FavoriteEntry :=
  match favorites w with
  | Some l => l
  | None => []
  end.

Definition storageWorks : Env :=
  mkEnv (λ _, None) (λ _, inl (Err "offline")) (λ _, inl (Err "offline"))
        (λ _, inl (Err "offline")) (λ _, None) (λ _, None) 1000.

(** The function at one index answers its pending call. *)
Definition respond {A} (a : ∀ X, Event X → Error + X) (p : Prog A) : Prog A :=
  match p with
  | Call c k => k (a _ c)
  | _ => p
  end.

(** What is left of [enrichOne s] once the nutrition arrived. *)
Definition afterNutrition (s : Slot) (nut : Nutrition) : Prog IngredientInfo :=
  tryCatch
    (aler ← await (GetAllergenFlags (s_name s));
     mret (mkIngredientInfo (s_name s) (s_measure s) nut aler))
    (λ _, mret (degraded s)).

(** The entry of a slot, given the answers to its two calls. *)
Definition enriched (a : ∀ X, Event X → Error + X) (s : Slot) : IngredientInfo :=
  match a _ (GetNutritionByIngredient (s_name s)), a _ (GetAllergenFlags (s_name s)) with
  | inr nut, inr aler => mkIngredientInfo (s_name s) (s_measure s) nut aler
  | _, _ => degraded s
  end.

Definition enrichedAll (answer : Oracle) (ss : list Slot) : list IngredientInfo :=
  imap (λ k s, enriched (answer k) s) ss.

Definition isNutritionCall (c : Invocation) : bool :=
  match c with
  | Invoked (GetNutritionByIngredient _) => true
  | _ => false
  end.

Definition isAllergenCall (c : Invocation) : bool :=
  match c with
  | Invoked (GetAllergenFlags _) => true
  | _ => false
  end.

(** Function [k] has issued its allergen call. *)
Definition allergenIssued (k : nat) (log : list (nat * Invocation)) : bool :=
  existsb (λ x, (x.1 =? k) && isAllergenCall x.2) log.

(** Calls in flight: those of the functions that are waiting. *)
Definition inFlightCalls {A} (st : Pool A) : list Invocation :=
  omap pendingCall (tasks st).

(** A function that still waits for its nutrition may issue one more call. *)
Definition budget {A} (p : Prog A) : nat :=
  match pendingCall p with
  | Some c => if isNutritionCall c then 1 else 0
  | None => 0
  end.

(** How often the scheduler serves index [k]. *)
Definition served (k : nat) (sched : list nat) : nat :=
  length (filter (λ i, i = k) sched).

(** The three stages of an enrichment function. *)
Definition Phase (a : ∀ X, Event X → Error + X) (s : Slot)
    (p : Prog IngredientInfo) : Prop :=
  p = enrichOne s
  ∨ (∃ nut, a _ (GetNutritionByIngredient (s_name s)) = inr nut
            ∧ p = afterNutrition s nut)
  ∨ p = Ret (enriched a s).

(** The ingredients A, B, C of the specification's example; the nutrition
    of the second one cannot be fetched. *)
Definition threeIngredients : Dish :=
  mkDish (js "52959") (js "Baked salmon") (js "s.jpg") (js "Bake.")
    (<["strIngredient1" := js "A"]>
       (<["strMeasure1" := js "1 tbsp"]>
          (<["strIngredient2" := js "B"]>
             (<["strIngredient3" := js "C"]> ∅)))).

Definition facts : Nutrition := mkNutrition 52 (1 # 2) 0 10 1.

Definition secondFails : Oracle := λ k X c,
  match c in Event X return Error + X with
  | GetNutritionByIngredient _ =>
      if decide (k = 1) then inl (Err "offline") else inr facts
  | GetAllergenFlags _ => inr [js "en:fish"]
  | _ => inl (Err "not a remote call")
  end.

(** ** What the screen shows (lines 180-316) *)

(** The [useState] cells of the second effect, and what it does once
    [await Promise.all(...)] returns: [setIngredients(enriched);
    setLoadingNut(false)]. A rejection would leave the cells as they
    are. *)
Record EnrichUi : Type := mkEnrichUi {
  ingredients      : list IngredientInfo;
  loadingNutrition : bool;
}.

Definition initialEnrichUi : EnrichUi := mkEnrichUi [] true.

Definition finishEnrichment (o : option (Error + list IngredientInfo))
    (eu : EnrichUi) : EnrichUi :=
  match o with
  | Some (inr enriched) => mkEnrichUi enriched false
  | _ => eu
  end.

(** [s.startsWith(pattern)] and [s.replace(pattern, replacement)] for a
    string pattern: the first occurrence only (the replacement used here is
    the empty string, which has no [$] patterns). *)
Definition startsWith (pattern s : jsstring) : bool :=
  bool_decide (take (length pattern) s = pattern).

Fixpoint replace (pattern replacement s : jsstring) {struct s} : jsstring :=
  if startsWith pattern s
  then replacement ++ drop (length pattern) s
  else match s with
       | [] => []
       | c :: s' => c :: replace pattern replacement s'
       end.

(** [a.replace('en:', '')] (line 302). *)
Definition allergenLabel (a : jsstring) : jsstring := replace (js "en:") [] a.

(** One row of the remote screen (lines 283-306). *)
Record Row : Type := mkRow {
  r_name      : jsstring;
  r_measure   : option jsstring;
  r_nutrition : Nutrition;
  r_allergens : list jsstring;
}.

Definition rowOf (ing : IngredientInfo) : Row :=
  mkRow (name ing) (measure ing) (nutrition ing) (allergenLabel <$> allergens ing).

Inductive Body : Type :=
  | Spinner
  | Rows (rows : list Row)
  | NoIngredientData.

Inductive Screen : Type :=
  | Loader
  | LocalDetails (m : Meal) (heart : bool)
  | RemoteDetails (d : Dish) (heart : bool) (body : Body).

(** What reading [dish.strMealThumb] throws when [dish] is [null]. *)
Definition nullDish : Error := Err "TypeError: dish is null".

(** The [return] statements of the component, in their order: the loader
    (line 181), the local screen (line 190), the remote screen (line 250),
    which reads the properties of [dish]. *)
Definition isSet {A} (o : option A) : bool :=
  match o with
  | Some _ => true
  | None => false
  end.

Definition render (u : Ui) (eu : EnrichUi) : Error + Screen :=
  if (isSet (localMeal u) && loadingLocal u)
     || (negb (isSet (localMeal u)) && loadingDish u)
  then inr Loader
  else
    match localMeal u with
    | Some m => inr (LocalDetails m (isFavorite u))
    | None =>
        match dish u with
        | None => inl nullDish
        | Some d =>
            inr (RemoteDetails d (isFavorite u)
                   (if loadingNutrition eu then Spinner
                    else if 0 <? length (ingredients eu)
                         then Rows (rowOf <$> ingredients eu)
                         else NoIngredientData))
        end
    end.

(** ** Kinds of calls, and more example data *)

Definition isFavoritesWrite (c : Invocation) : bool :=
  match c with
  | Invoked (SetItem FAVORITES_KEY _) => true
  | _ => false
  end.

Definition isHistoryWrite (c : Invocation) : bool :=
  match c with
  | Invoked (SetItem HISTORY_KEY _) => true
  | _ => false
  end.

Definition isLocalSetter (c : Invocation) : bool :=
  match c with
  | Invoked (SetLocalMeal _) => true
  | Invoked (SetLoadingLocal _) => true
  | _ => false
  end.

Definition isUiSetter (c : Invocation) : bool :=
  match c with
  | Invoked (SetLocalMeal _) => true
  | Invoked (SetDish _) => true
  | Invoked (SetLoadingLocal _) => true
  | Invoked (SetLoadingDish _) => true
  | _ => false
  end.

(** The calls function [k] has issued, in their order. *)
Definition callsOf (k : nat) (log : list (nat * Invocation)) : list Invocation :=
  (filter (λ x, x.1 = k) log).*2.

(** AsyncStorage rejects every read. *)
Definition storageDown : Env :=
  mkEnv (λ i, if decide (i = js "7") then Some jollof else None)
        (λ i, if decide (i = js "7") then inr remoteSeven else inl (Err "not found"))
        (λ _, inl (Err "offline")) (λ _, inl (Err "offline"))
        (λ _, Some (Err "storage")) (λ _, None) 1000.

(** The remote API knows dish 52959. *)
Definition remoteWorks : Env :=
  mkEnv (λ _, None)
        (λ i, if decide (i = js "52959") then inr threeIngredients
              else inl (Err "not found"))
        (λ _, inr facts) (λ _, inr [js "en:fish"])
        (λ _, None) (λ _, None) 2000.

(** A remote dish whose slots are all blank or absent. *)
Definition noIngredients : Dish :=
  mkDish (js "53000") (js "Water") (js "w.jpg") (js "Pour.")
    (<["strIngredient1" := js "  "]> (<["strMeasure1" := js "1 glass"]> ∅)).

(** [slotsExample] with other white space around its values and with
    properties the loop does not read. *)
Definition slotsExampleNoisy : Dish :=
  mkDish (js "1") (js "Other") (js "o.jpg") (js "None.")
    (<["strIngredient1" := js "soy sauce"]>
       (<["strMeasure1" := js "  3/4 cup "]>
          (<["strIngredient3" := js ""]>
             (<["strIngredient5" := js " water"]>
                (<["strIngredient20" := js "soy sauce  "]>
                   (<["strIngredient21" := js "pepper"]>
                      (<["strIngredient0" := js "salt"]>
                         (<["strYoutube" := js "https://example.org"]> ∅)))))))).

(** A history of two dishes, and a favorites list holding the first. *)
Definition twoViewed : list HistoryEntry :=
  [mkHist (js "b") (js "Banku") (js "b.jpg") 9;
   mkHist (js "a") (js "Ampesi") (js "a.jpg") 5].

Definition returningWorld : World :=
  mkWorld (Some [mkFav (js "7") (js "Jollof") (js "jollof.png")])
          (Some twoViewed) initialUi [] [].

(** The first rejection that [checkAndRecord] meets, if any: reading the
    favorites, reading the history, writing the history. *)
Definition firstStorageFault (env : Env) : option Error :=
  match getItemFault env FAVORITES_KEY with
  | Some e => Some e
  | None =>
      match getItemFault env HISTORY_KEY with
      | Some e => Some e
      | None => setItemFault env HISTORY_KEY
      end
  end.

Definition storedHistory (w : World) : list HistoryEntry :=
  match history w with
  | Some l => l
  | None => []
  end.

Definition isConsoleError (c : Invocation) : bool :=
  match c with
  | Invoked (ConsoleError _) => true
  | _ => false
  end.

(** Everything of the world that [toggleFavorite] has no business
    with. *)
Definition besidesFavorites (w : World)
    : option (list HistoryEntry) * option Dish * option Meal * bool * bool * list Error :=
  (history w, dish (ui w), localMeal (ui w), loadingDish (ui w),
   loadingLocal (ui w), console w).

Definition touchesBesidesFavorites (c : Invocation) : bool :=
  isHistoryWrite c || isUiSetter c || isConsoleError c.

(** What [checkAndRecord] leaves alone. *)
Definition besidesRecord (w : World)
    : option (list FavoriteEntry) * option Dish * option Meal * bool * bool * list Error :=
  (favorites w, dish (ui w), localMeal (ui w), loadingDish (ui w),
   loadingLocal (ui w), console w).

Definition touchesBesidesRecord (c : Invocation) : bool :=
  isFavoritesWrite c || isUiSetter c || isConsoleError c.

(** The body of the remote screen, from the cells of the second effect. *)
Definition bodyOf (eu : EnrichUi) : Body :=
  if loadingNutrition eu then Spinner
  else if 0 <? length (ingredients eu)
       then Rows (rowOf <$> ingredients eu)
       else NoIngredientData.

(** The world once the local branch has called [setLocalMeal] and
    [setDish], and once the remote branch has fetched and called
    [setDish]. *)
Definition afterLocalSetters (m : Meal) (w : World) : World :=
  setUi (λ u, mkUi (Some (localDish m)) (loadingDish u) (isFavorite u)
                (localMeal u) (loadingLocal u))
    (logCall (Invoked (SetDish (localDish m)))
       (setUi (λ u, mkUi (dish u) (loadingDish u) (isFavorite u) (Some m)
                      (loadingLocal u))
          (logCall (Invoked (SetLocalMeal m)) w))).

Definition afterRemoteFetch (i : jsstring) (data : Dish) (w : World) : World :=
  setUi (λ u, mkUi (Some data) (loadingDish u) (isFavorite u)
                (localMeal u) (loadingLocal u))
    (logCall (Invoked (SetDish data))
       (logCall (Invoked (GetMealDetails i)) w)).

(** The remote API knows dish 52959, AsyncStorage rejects every read. *)
Definition storageDownRemote : Env :=
  mkEnv (λ _, None)
        (λ i, if decide (i = js "52959") then inr threeIngredients
              else inl (Err "not found"))
        (λ _, inr facts) (λ _, inr [js "en:fish"])
        (λ _, Some (Err "storage")) (λ _, None) 2000.

(** Dish 7 is local, dish 52959 is remote. *)
Definition mixedSources : Env :=
  mkEnv (λ i, if decide (i = js "7") then Some jollof else None)
        (λ i, if decide (i = js "52959") then inr threeIngredients
              else inl (Err "not found"))
        (λ _, inr facts) (λ _, inr [js "en:fish"])
        (λ _, None) (λ _, None) 3000.

(** An answer that is a value, not a rejection. *)
Definition fulfils {X} (r : Error + X) : bool :=
  match r with
  | inr _ => true
  | inl _ => false
  end.

(** * Properties *)

(** ** Slot extraction *)

Section Slots.

Variable dish : Dish.

Lemma slotLoop_spec n i acc :
  slotLoop dish n i acc
  = acc ++ (slotAt dish <$> filter (λ j, nonBlank dish j = true) (seq i n)).
Proof.
  revert i acc. induction n as [|n IH]; intros i acc; simpl.
  - by rewrite app_nil_r.
  - rewrite IH, filter_cons. unfold nonBlank, slotAt.
    destruct (ingredientAt dish i) as [[|c s]|] eqn:E; simpl.
    + by destruct (decide (false = true)).
    + destruct (decide (true = true)); [|done].
      by rewrite E, <- app_assoc.
    + by destruct (decide (false = true)).
Qed.

Lemma seq_ascending i n : StronglySorted lt (seq i n).
Proof.
  revert i. induction n as [|n IH]; intros i; simpl; constructor; [apply IH|].
  apply Forall_forall. intros j Hj%list_elem_of_In%in_seq. lia.
Qed.

Lemma filter_ascending (P : nat → Prop) `{!∀ j, Decision (P j)} l :
  StronglySorted lt l → StronglySorted lt (filter P l).
Proof.
  induction 1 as [|j l Hl IH Hj]; [constructor|].
  rewrite filter_cons. destruct (decide (P j)); [|done].
  constructor; [done|].
  apply Forall_forall. intros k [_ Hk]%list_elem_of_filter.
  by eapply Forall_forall in Hj.
Qed.

End Slots.

Lemma nonBlank_iff dish i :
  nonBlank dish i = true
  ↔ ∃ s, props dish !! ("strIngredient" +:+ pretty i) = Some s ∧ trim s ≠ [].
Proof.
  unfold nonBlank, ingredientAt.
  destruct (props dish !! _) as [s|]; simpl.
  - destruct (trim s) eqn:E; split; try done.
    + by intros (s' & [= <-] & Hs); rewrite E in Hs.
    + intros _. exists s. by rewrite E.
  - split; [done|]. by intros (s & ? & _).
Qed.

Lemma range_Forall (P : nat → Prop) a n :
  Forall P (seq a n) → ∀ i, a ≤ i < a + n → P i.
Proof.
  intros H i Hi. eapply Forall_forall in H; [done|].
  apply list_elem_of_In, in_seq. lia.
Qed.

Lemma filter_ext_in {A} (P Q : A → Prop)
    `{!∀ x, Decision (P x), !∀ x, Decision (Q x)} (l : list A) :
  (∀ x, x ∈ l → P x ↔ Q x) → filter P l = filter Q l.
Proof.
  induction l as [|a l IH]; intros Hext; [reflexivity|].
  rewrite !filter_cons, IH by (intros x Hx; apply Hext; by right).
  pose proof (Hext a ltac:(by left)) as Ha.
  destruct (decide (P a)) as [Hp|Hp], (decide (Q a)) as [Hq|Hq];
    try reflexivity; exfalso; tauto.
Qed.

Lemma extractSlots_length dish : length (extractSlots dish) ≤ 20.
Proof.
  unfold extractSlots. rewrite slotLoop_spec, app_nil_l, length_fmap.
  etrans; [apply length_filter|]. rewrite length_seq. reflexivity.
Qed.

(** C4. Ingredient extraction visits the slots 1 to 20 in ascending order
    and keeps exactly those whose trimmed name is present and not empty:
    the output is the list of the non-blank slots in slot order (so of at
    most 20 entries, nothing reordered and a repeated name kept once per
    slot). A dish whose non-blank names are in slots 1, 5 and 20 only
    yields those three entries, in that order. *)
Theorem extractSlots_slot_order (dish : Dish) :
  let kept := filter (λ i, nonBlank dish i = true) (seq 1 20) in
  extractSlots dish = slotsInOrder dish
  ∧ StronglySorted lt kept
  ∧ (∀ i, i ∈ kept ↔ 1 ≤ i ≤ 20 ∧
       ∃ s, props dish !! ("strIngredient" +:+ pretty i) = Some s ∧ trim s ≠ [])
  ∧ (∀ k i, kept !! k = Some i →
       extractSlots dish !! k
       = Some (mkSlot (default [] (ingredientAt dish i)) (measureAt dish i)))
  ∧ length (extractSlots dish) = length kept
  ∧ length (extractSlots dish) ≤ 20
  ∧ ((∀ i, 1 ≤ i ≤ 20 → (nonBlank dish i = true ↔ i = 1 ∨ i = 5 ∨ i = 20)) →
     extractSlots dish = [slotAt dish 1; slotAt dish 5; slotAt dish 20]).
Proof.
  intros kept.
  assert (Hx : extractSlots dish = slotAt dish <$> kept).
  { unfold extractSlots. rewrite slotLoop_spec. apply app_nil_l. }
  assert (Hlen : length (extractSlots dish) = length kept).
  { rewrite Hx. apply length_fmap. }
  split; [exact Hx|]. split; [apply filter_ascending, seq_ascending|].
  split.
  { intros i. subst kept. rewrite list_elem_of_filter, nonBlank_iff.
    rewrite list_elem_of_In, in_seq. split; intros [? ?]; split; (assumption || lia). }
  split.
  { intros k i Hk. rewrite Hx, list_lookup_fmap, Hk. reflexivity. }
  split; [exact Hlen|]. split; [apply extractSlots_length|].
  intros H. rewrite Hx. subst kept.
  rewrite (filter_ext_in _ (λ i, i = 1 ∨ i = 5 ∨ i = 20)); [reflexivity|].
  intros i Hi%list_elem_of_In%in_seq. apply H. lia.
Qed.

Lemma extractSlots_slot_order_witness :
  extractSlots slotsExample
  = [mkSlot (js "soy sauce") (Some (js "3/4 cup"));
     mkSlot (js "water") None;
     mkSlot (js "soy sauce") None].
Proof.
  refine (eq_trans
    (proj2 (proj2 (proj2 (proj2 (proj2 (proj2 (extractSlots_slot_order slotsExample)))))) _) _).
  - intros i Hi.
    apply (range_Forall (λ i, nonBlank slotsExample i = true ↔ i = 1 ∨ i = 5 ∨ i = 20) 1 20);
      [clear i Hi|lia].
    repeat (apply Forall_cons; split;
            [vm_compute; split; [try discriminate; intros _; lia
                                |try reflexivity; intros H; exfalso; lia]|]).
    apply Forall_nil. exact I.
  - vm_compute. reflexivity.
Defined.

(** ** The history list *)

Section History.

Implicit Types (h : list HistoryEntry) (e : HistoryEntry) (i n t : jsstring).

Lemma slice_0 {A} k (l : list A) : slice 0 k l = take k l.
Proof. unfold slice. by rewrite Nat.sub_0_r, drop_0. Qed.

Lemma recordView_take now i n t h :
  recordView now i n t h
  = take MAX_HISTORY (mkHist i n t now :: filter (λ e, h_idMeal e ≠ i) h).
Proof.
  unfold recordView. case_decide; [apply slice_0|].
  symmetry. apply take_ge. lia.
Qed.

Lemma recordView_cons now i n t h :
  recordView now i n t h
  = mkHist i n t now :: take (MAX_HISTORY - 1) (filter (λ e, h_idMeal e ≠ i) h).
Proof. by rewrite recordView_take. Qed.

Lemma recordView_length now i n t h :
  length (recordView now i n t h) ≤ MAX_HISTORY.
Proof. rewrite recordView_take, length_take. lia. Qed.

Lemma filter_all (P : HistoryEntry → Prop) `{!∀ e, Decision (P e)} h :
  Forall P h → filter P h = h.
Proof.
  induction 1 as [|e h He Hh IH]; [done|].
  by rewrite filter_cons_True, IH.
Qed.

Lemma StronglySorted_sub {A} (R : relation A) (l k : list A) :
  l `sublist_of` k → StronglySorted R k → StronglySorted R l.
Proof.
  induction 1 as [|x l k Hs IH|x l k Hs IH]; intros Hk; [done|..].
  - apply StronglySorted_inv in Hk as [Hk Hx].
    constructor; [by apply IH|].
    apply Forall_forall. intros y Hy. eapply Forall_forall in Hx; [done|].
    by eapply elem_of_sublist.
  - apply StronglySorted_inv in Hk as [Hk _]. by apply IH.
Qed.

(** Views recorded one after the other, the last one on top. *)
Lemma recordViews_snoc vs v h :
  recordViews (vs ++ [v]) h
  = recordView (v_now v) (v_id v) (v_name v) (v_thumb v) (recordViews vs h).
Proof. unfold recordViews. by rewrite foldl_snoc. Qed.

Lemma recordViews_front vs h :
  vs ≠ [] → NoDup (v_id <$> vs) →
  ∃ rest, recordViews vs h = take MAX_HISTORY (reverse (entryOf <$> vs) ++ rest).
Proof.
  induction vs as [|v vs IH] using rev_ind; [done|]. intros _ Hnd.
  rewrite fmap_app, NoDup_app in Hnd. destruct Hnd as (Hvs & Hfresh & _).
  assert (Hne : Forall (λ e, h_idMeal e ≠ v_id v) (reverse (entryOf <$> vs))).
  { apply Forall_reverse, Forall_fmap, Forall_forall. intros v' Hv' Heq.
    apply (Hfresh (v_id v')); [by apply list_elem_of_fmap_2|].
    simpl in Heq. rewrite Heq. simpl. by left. }
  rewrite recordViews_snoc, recordView_take, fmap_app.
  change (entryOf <$> [v]) with [entryOf v]. rewrite reverse_snoc.
  change (mkHist (v_id v) (v_name v) (v_thumb v) (v_now v)) with (entryOf v).
  destruct vs as [|v0 vs0]; [by eexists|].
  destruct IH as [rest ->]; [done..|].
  set (E := reverse (entryOf <$> v0 :: vs0)) in *.
  destruct (decide (MAX_HISTORY ≤ length E)) as [Hlong|Hshort].
  - exists []. rewrite app_nil_r, take_app_le by done.
    rewrite filter_all by by apply Forall_take.
    change (take MAX_HISTORY (?x :: ?l)) with (x :: take (MAX_HISTORY - 1) l).
    f_equal. rewrite take_take. f_equal.
  - exists (filter (λ e, h_idMeal e ≠ v_id v) (take (MAX_HISTORY - length E) rest)).
    rewrite take_app_ge, filter_app, filter_all by (done || lia).
    done.
Qed.

Lemma recordViews_last_fifty vs h :
  MAX_HISTORY ≤ length vs → NoDup (v_id <$> vs) →
  recordViews vs h = take MAX_HISTORY (reverse (entryOf <$> vs)).
Proof.
  intros Hlen Hnd.
  destruct (recordViews_front vs h) as [rest ->]; [|done|].
  { intros ->. unfold MAX_HISTORY in Hlen. simpl in Hlen. lia. }
  apply take_app_le. by rewrite length_reverse, length_fmap.
Qed.

End History.

(** C3. Recording a view removes every entry with the same identifier,
    puts the new entry, stamped with the clock reading, at the front and
    keeps the first 50 entries of the result; after 51 views of distinct
    dishes, recorded one after the other on any prior list, the list holds
    the last 50 of them, newest first: the first one is gone. *)
Theorem recordView_dedup_promote_truncate now i n t (h : list HistoryEntry) :
  let kept := filter (λ e, h_idMeal e ≠ i) h in
  recordView now i n t h = take MAX_HISTORY (mkHist i n t now :: kept)
  ∧ head (recordView now i n t h) = Some (mkHist i n t now)
  ∧ Forall (λ e, h_idMeal e ≠ i) (tail (recordView now i n t h))
  ∧ length (recordView now i n t h) = min MAX_HISTORY (S (length kept))
  ∧ (∀ views, length views = 51 → NoDup (v_id <$> views) →
       recordViews views h = reverse (entryOf <$> drop 1 views)).
Proof.
  intros kept. subst kept. split; [apply recordView_take|].
  rewrite recordView_cons. split; [done|]. split.
  { simpl. apply Forall_take, Forall_forall.
    by intros e [He _]%list_elem_of_filter. }
  split.
  { change (length (?x :: ?l)) with (S (length l)).
    rewrite length_take. unfold MAX_HISTORY. lia. }
  intros views Hlen Hnd.
  rewrite recordViews_last_fifty by (done || (unfold MAX_HISTORY; lia)).
  destruct views as [|v0 vs]; [done|]. simpl in Hlen.
  change (drop 1 (v0 :: vs)) with vs. rewrite fmap_cons, reverse_cons.
  apply take_app_length'. rewrite length_reverse, length_fmap.
  unfold MAX_HISTORY. lia.
Qed.

Lemma recordView_dedup_promote_truncate_witness :
  recordViews fiftyOneViews [] = reverse (entryOf <$> drop 1 fiftyOneViews).
Proof.
  apply (recordView_dedup_promote_truncate 0%Z [] [] [] []).
  - vm_compute. reflexivity.
  - apply (bool_decide_unpack _). vm_compute. exact I.
Defined.

(** The invariant is kept by a view whose clock reading is later than
    every stored one. *)
Lemma HistoryInv_recordView now i n t (h : list HistoryEntry) :
  HistoryInv h →
  Forall (λ e, (viewedAt e < now)%Z) h →
  HistoryInv (recordView now i n t h).
Proof.
  intros (Hnd & Hsorted & _) Hnow. split_and!.
  - rewrite recordView_take, fmap_take.
    eapply sublist_NoDup; [|apply sublist_take].
    rewrite fmap_cons. apply NoDup_cons. split.
    + intros (e & Heq & [He _]%list_elem_of_filter)%list_elem_of_fmap.
      by apply He.
    + eapply sublist_NoDup; [exact Hnd|].
      apply fmap_sublist, sublist_filter.
  - rewrite recordView_take.
    eapply StronglySorted_sub; [apply sublist_take|].
    constructor.
    + eapply StronglySorted_sub; [apply sublist_filter|done].
    + apply Forall_forall. intros e [_ He]%list_elem_of_filter.
      eapply Forall_forall in Hnow; [|done]. exact Hnow.
  - apply recordView_length.
Qed.


(** X5. Starting from the empty list, views recorded at strictly increasing
    clock readings keep the invariant, and every [viewedAt] in the list is
    the reading of one of the views. *)
Lemma recordViews_invariant (views : list View) :
  StronglySorted Z.lt (v_now <$> views) →
  HistoryInv (recordViews views [])
  ∧ Forall (λ e, ∃ v, v ∈ views ∧ viewedAt e = v_now v) (recordViews views []).
Proof.
  induction views as [|v vs IH] using rev_ind; intros Hs.
  - split; [|constructor]. split_and!; [constructor..|simpl; lia].
  - rewrite fmap_app in Hs. pose proof (StronglySorted_app_1_l _ _ _ Hs) as Hvs.
    destruct (IH Hvs) as [Hinv Htimes].
    assert (Hlt : Forall (λ e, (viewedAt e < v_now v)%Z) (recordViews vs [])).
    { apply Forall_forall. intros e He.
      eapply Forall_forall in Htimes as (v' & Hv' & ->); [|done].
      apply (StronglySorted_app_1_elem_of _ _ _ (v_now v') (v_now v) Hs);
        [by apply list_elem_of_fmap_2|by left]. }
    rewrite recordViews_snoc. split; [by apply HistoryInv_recordView|].
    rewrite recordView_take. apply Forall_take. constructor.
    + exists v. split; [|done]. apply elem_of_app. right. by left.
    + apply Forall_forall. intros e [_ He]%list_elem_of_filter.
      eapply Forall_forall in Htimes as (v' & Hv' & Heq); [|done].
      exists v'. split; [|done]. apply elem_of_app. by left.
Qed.




(** C10. Recording a view leaves the entries of other dishes as they were
    and in their order: the new list is the new entry followed by the
    first 49 entries of the prior list without the entries of the viewed
    dish. Nothing is cut when the prior list has fewer than 50 entries. *)
Theorem recordView_frame now i n t (h : list HistoryEntry) :
  let others := filter (λ e, h_idMeal e ≠ i) h in
  recordView now i n t h = mkHist i n t now :: take (MAX_HISTORY - 1) others
  ∧ take (MAX_HISTORY - 1) others ++ drop (MAX_HISTORY - 1) others = others
  ∧ tail (recordView now i n t h) `sublist_of` h
  ∧ (∀ e, e ∈ others ↔ e ∈ h ∧ h_idMeal e ≠ i)
  ∧ (∀ k e, k < MAX_HISTORY - 1 → others !! k = Some e →
       recordView now i n t h !! S k = Some e)
  ∧ (length h < MAX_HISTORY → recordView now i n t h = mkHist i n t now :: others).
Proof.
  intros others. subst others. rewrite recordView_cons.
  split; [done|]. split; [apply take_drop|]. split.
  { simpl. etrans; [apply sublist_take|apply sublist_filter]. }
  split.
  { intros e. rewrite list_elem_of_filter. tauto. }
  split.
  { intros k e Hk He. simpl. by rewrite lookup_take_lt. }
  intros Hlen. f_equal. apply take_ge.
  pose proof (length_filter (λ e, h_idMeal e ≠ i) h). lia.
Qed.

(** ** The first effect *)

Lemma avoids_await {X} bad (c : Event X) :
  bad (Invoked c) = false → avoids bad (await c).
Proof. intros Hc. split; [done|]. by intros [e|x]. Qed.

Lemma avoids_bind {A B} bad (p : Prog A) (f : A → Prog B) :
  avoids bad p → (∀ a, avoids bad (f a)) → avoids bad (p ≫= f).
Proof.
  intros Hp Hf. induction p as [a|e|X c k IH]; [apply Hf|done|].
  destruct Hp as [Hc Hk]. split; [done|]. intros r. by apply IH.
Qed.

Lemma handle_calls env {X} (c : Event X) w :
  calls (handle env c w).1 = calls w.
Proof.
  destruct c; simpl; try done.
  - by destruct (getItemFault env k).
  - by destruct (setItemFault env k), k.
Qed.

Lemma handle_dish env {X} (c : Event X) w :
  isDishSetter (Invoked c) = false →
  dish (ui (handle env c w).1) = dish (ui w)
  ∧ localMeal (ui (handle env c w).1) = localMeal (ui w).
Proof.
  destruct c; simpl; try done.
  - by destruct (getItemFault env k).
  - by destruct (setItemFault env k), k.
Qed.

Lemma avoids_run {A} bad env (p : Prog A) w :
  avoids bad p →
  ∃ cs, calls (run env p w).1 = calls w ++ cs ∧ Forall (λ c, bad c = false) cs.
Proof.
  revert w. induction p as [a|e|X c k IH]; intros w Hp.
  - exists []. by rewrite app_nil_r.
  - exists []. by rewrite app_nil_r.
  - destruct Hp as [Hc Hk]. simpl.
    pose proof (handle_calls env c (logCall (Invoked c) w)) as Hcalls.
    destruct (handle env c (logCall (Invoked c) w)) as [w' r].
    destruct (IH r w' (Hk r)) as (cs & -> & Hcs). simpl in Hcalls.
    exists (Invoked c :: cs). rewrite Hcalls, <- app_assoc. split; [done|].
    by constructor.
Qed.

Lemma avoids_dish {A} env (p : Prog A) w :
  avoids isDishSetter p →
  dish (ui (run env p w).1) = dish (ui w)
  ∧ localMeal (ui (run env p w).1) = localMeal (ui w).
Proof.
  revert w. induction p as [a|e|X c k IH]; intros w Hp; [done..|].
  destruct Hp as [Hc Hk]. simpl.
  pose proof (handle_dish env c (logCall (Invoked c) w) Hc) as [Hd Hl].
  destruct (handle env c (logCall (Invoked c) w)) as [w' r].
  destruct (IH r w' (Hk r)) as [-> ->]. done.
Qed.

Lemma checkAndRecord_avoids bad i n t :
  (∀ c, isStorage c = true → bad c = false) →
  (∀ b, bad (Invoked (SetIsFavorite b)) = false) →
  bad (Invoked DateNow) = false →
  avoids bad (checkAndRecord i n t).
Proof.
  intros Hst Hfav Hnow. unfold checkAndRecord, readList.
  repeat first
    [ apply avoids_bind
    | apply avoids_await
    | progress intros
    | exact I ].
  all: first [ apply Hfav | exact Hnow | apply Hst; reflexivity ].
Qed.

(** C1. When the identifier is in the local data set, the first effect
    sets the dish built from the local meal and calls nothing remote:
    whatever the remote API would answer for that identifier, and whether
    or not AsyncStorage rejects, the calls it makes are state setters,
    storage reads and writes and the clock; and the second effect returns
    at its guard, so no enrichment call is made either. *)
Theorem local_precedence env i m w :
  getMealById env i = Some m →
  let w' := (run env (resolveEffect env i) w).1 in
  dish (ui w') = Some (localDish m)
  ∧ localMeal (ui w') = Some m
  ∧ (∃ cs, calls w' = calls w ++ cs ∧ Forall (λ c, isRemote c = false) cs)
  ∧ enrichEffect (ui w') = None.
Proof.
  intros Hm w'. subst w'. unfold resolveEffect. rewrite Hm.
  set (rest := checkAndRecord (m_id m) (m_name m) (thumbnail m);;
               await (SetLoadingLocal false)).
  assert (Hrest : ∀ bad,
            (∀ c, isStorage c = true → bad c = false) →
            (∀ b, bad (Invoked (SetIsFavorite b)) = false) →
            bad (Invoked DateNow) = false →
            bad (Invoked (SetLoadingLocal false)) = false →
            avoids bad rest).
  { intros bad Hst Hfav Hnow Hload. apply avoids_bind.
    - by apply checkAndRecord_avoids.
    - intros _. by apply avoids_await. }
  assert (Hdish : avoids isDishSetter rest).
  { apply Hrest; try done. by intros [X []]. }
  assert (Hremote : avoids isRemote
            (await (SetLocalMeal m);; await (SetDish (localDish m));; rest)).
  { apply avoids_bind; [by apply avoids_await|]. intros _.
    apply avoids_bind; [by apply avoids_await|]. intros _.
    apply Hrest; try done. by intros [X []]. }
  pose proof (avoids_run isRemote env _ w Hremote) as Hcalls.
  change (run env (await (SetLocalMeal m);; await (SetDish (localDish m));; rest) w)
    with (run env rest
            (setUi (λ u, mkUi (Some (localDish m)) (loadingDish u) (isFavorite u)
                           (localMeal u) (loadingLocal u))
               (logCall (Invoked (SetDish (localDish m)))
                  (setUi (λ u, mkUi (dish u) (loadingDish u) (isFavorite u)
                                 (Some m) (loadingLocal u))
                     (logCall (Invoked (SetLocalMeal m)) w))))) in *.
  match goal with |- context [run env rest ?w1] =>
    destruct (avoids_dish env rest w1 Hdish) as [Hd Hl] end.
  rewrite Hd, Hl in *. split; [done|]. split; [done|]. split; [done|].
  unfold enrichEffect. by rewrite Hd, Hl.
Qed.

Lemma local_precedence_witness :
  let w' := (run bothSources (resolveEffect bothSources (js "7")) freshWorld).1 in
  dish (ui w') = Some (localDish jollof)
  ∧ localMeal (ui w') = Some jollof
  ∧ (∃ cs, calls w' = calls freshWorld ++ cs ∧ Forall (λ c, isRemote c = false) cs)
  ∧ enrichEffect (ui w') = None.
Proof.
  apply (local_precedence bothSources (js "7") jollof freshWorld).
  vm_compute. reflexivity.
Defined.

(** C5, as amended. When the identifier is not local and [getMealDetails]
    rejects, the first effect ends there with the dish not set: the
    rejection is caught and handed to [console.error], it does not leave
    the effect, which completes after clearing [loadingDish]; and nothing
    else happens: no read or write of AsyncStorage (no favorite check, no
    history record), the stored lists and the favorite flag are as
    before. *)
Theorem remote_failure_no_side_effects env i e w :
  getMealById env i = None →
  getMealDetails env i = inl e →
  let w' := (run env (resolveEffect env i) w).1 in
  (run env (resolveEffect env i) w).2 = inr ()
  ∧ dish (ui w') = dish (ui w)
  ∧ console w' = console w ++ [e]
  ∧ favorites w' = favorites w
  ∧ history w' = history w
  ∧ isFavorite (ui w') = isFavorite (ui w)
  ∧ loadingDish (ui w') = false
  ∧ calls w' = calls w ++ [Invoked (GetMealDetails i); Invoked (ConsoleError e);
                           Invoked (SetLoadingDish false)]
  ∧ Forall (λ c, isStorage c = false)
      [Invoked (GetMealDetails i); Invoked (ConsoleError e);
       Invoked (SetLoadingDish false)].
Proof.
  intros Hm He w'. subst w'. unfold resolveEffect. rewrite Hm.
  simpl. rewrite He. simpl. rewrite <- !app_assoc.
  split_and!; try reflexivity. repeat constructor.
Qed.

Lemma remote_failure_no_side_effects_witness :
  let w' := (run bothSources (resolveEffect bothSources (js "9")) freshWorld).1 in
  dish (ui w') = None
  ∧ console w' = [Err "not found"]
  ∧ favorites w' = None
  ∧ history w' = None.
Proof.
  pose proof (remote_failure_no_side_effects bothSources (js "9")
                (Err "not found") freshWorld) as H.
  destruct H as (_ & Hd & Hc & Hf & Hh & _).
  - vm_compute. reflexivity.
  - vm_compute. reflexivity.
  - exact (conj Hd (conj Hc (conj Hf Hh))).
Defined.

(** C5, as stated, fails in one point: the rejection of [getMealDetails]
    does not reach the caller of the effect. The effect completes
    normally; the error is only written to the console. *)
Lemma remote_failure_surfaced_counterexample :
  getMealById bothSources (js "9") = None
  ∧ getMealDetails bothSources (js "9") = inl (Err "not found")
  ∧ (run bothSources (resolveEffect bothSources (js "9")) freshWorld).2 = inr ()
  ∧ (run bothSources (resolveEffect bothSources (js "9")) freshWorld).2
    ≠ inl (Err "not found")
  ∧ console (run bothSources (resolveEffect bothSources (js "9")) freshWorld).1
    = [Err "not found"].
Proof.
  split; [vm_compute; reflexivity|]. split; [vm_compute; reflexivity|].
  split; [vm_compute; reflexivity|]. split; [vm_compute; discriminate|].
  vm_compute. reflexivity.
Qed.

(** ** Favorites *)

Lemma isFavoriteIn_app i l k :
  isFavoriteIn i (l ++ k) = isFavoriteIn i l || isFavoriteIn i k.
Proof. apply existsb_app. Qed.

Lemma isFavoriteIn_filter i l :
  isFavoriteIn i (filter (λ f, f_idMeal f ≠ i) l) = false.
Proof.
  induction l as [|f l IH]; [done|].
  rewrite filter_cons. case_decide as Hf; [|done].
  simpl. rewrite IH. unfold strictEq. by rewrite bool_decide_eq_false_2.
Qed.

(** One press of the button when AsyncStorage works. *)
Lemma pressFavorite_ok env d w :
  getItemFault env FAVORITES_KEY = None →
  setItemFault env FAVORITES_KEY = None →
  let w' := (pressFavorite env d w).1 in
  (pressFavorite env d w).2 = inr JsUndefined
  ∧ isFavorite (ui w') = negb (isFavorite (ui w))
  ∧ isFavoriteIn (idMeal d) (storedFavorites w') = negb (isFavorite (ui w)).
Proof.
  intros Hg Hs w'. subst w'. unfold pressFavorite, toggleFavorite, readList.
  simpl. rewrite Hg. simpl. rewrite Hs. simpl.
  split; [done|]. split; [done|].
  unfold storedFavorites. simpl.
  destruct (isFavorite (ui w)); simpl.
  - apply isFavoriteIn_filter.
  - rewrite isFavoriteIn_app. simpl. unfold strictEq.
    rewrite bool_decide_eq_true_2 by done. by rewrite orb_true_r.
Qed.

(** A press that completes has written the list and flipped the flag. *)
Lemma pressFavorite_completes env d w v :
  (pressFavorite env d w).2 = inr v →
  getItemFault env FAVORITES_KEY = None ∧ setItemFault env FAVORITES_KEY = None.
Proof.
  unfold pressFavorite, toggleFavorite, readList. simpl.
  destruct (getItemFault env FAVORITES_KEY); simpl; [done|].
  destruct (setItemFault env FAVORITES_KEY); simpl; [done|]. done.
Qed.

(** What a press stores and sets, by what is rejected. *)
Lemma pressFavorite_outcome env d w :
  let out := pressFavorite env d w in
  match getItemFault env FAVORITES_KEY, setItemFault env FAVORITES_KEY with
  | Some e, _ => out.2 = inl e ∧ favorites out.1 = favorites w
                 ∧ isFavorite (ui out.1) = isFavorite (ui w)
  | None, Some e => out.2 = inl e ∧ favorites out.1 = favorites w
                    ∧ isFavorite (ui out.1) = isFavorite (ui w)
  | None, None =>
      out.2 = inr JsUndefined
      ∧ isFavorite (ui out.1) = negb (isFavorite (ui w))
      ∧ favorites out.1
        = Some (if isFavorite (ui w)
                then filter (λ f, f_idMeal f ≠ idMeal d) (storedFavorites w)
                else storedFavorites w
                     ++ [mkFav (idMeal d) (strMeal d) (strMealThumb d)])
  end.
Proof.
  unfold pressFavorite, toggleFavorite, readList, storedFavorites. simpl.
  destruct (getItemFault env FAVORITES_KEY) as [e|]; simpl; [done|].
  destruct (setItemFault env FAVORITES_KEY) as [e|]; simpl; [done|].
  done.
Qed.








(** C7, as amended. [toggleFavorite] returns nothing; the flag it sets is
    the new favorite state: when the call completes, the flag is true
    exactly when the dish is in the favorites list the call stored, and it
    is the negation of the flag the call started from. *)
Theorem toggleFavorite_sets_new_state env d w v :
  (pressFavorite env d w).2 = inr v →
  let w' := (pressFavorite env d w).1 in
  v = JsUndefined
  ∧ isFavorite (ui w') = isFavoriteIn (idMeal d) (storedFavorites w')
  ∧ isFavorite (ui w') = negb (isFavorite (ui w)).
Proof.
  intros Hv w'. subst w'.
  destruct (pressFavorite_completes env d w v Hv) as [Hg Hs].
  destruct (pressFavorite_ok env d w Hg Hs) as (Hr & Hf & Hm).
  rewrite Hr in Hv. injection Hv as <-.
  rewrite Hm, Hf. done.
Qed.

Lemma toggleFavorite_sets_new_state_witness :
  let w' := (pressFavorite storageWorks remoteSeven freshWorld).1 in
  isFavorite (ui w') = isFavoriteIn (idMeal remoteSeven) (storedFavorites w')
  ∧ isFavorite (ui w') = true.
Proof.
  pose proof (toggleFavorite_sets_new_state storageWorks remoteSeven freshWorld
                JsUndefined) as H.
  destruct H as (_ & H1 & H2).
  - vm_compute. reflexivity.
  - exact (conj H1 H2).
Defined.

(** C7, as stated, fails: the call fulfils with [undefined], not with the
    boolean that tells whether the dish is now a favorite. *)
Lemma toggleFavorite_returns_counterexample :
  let w' := (pressFavorite storageWorks remoteSeven freshWorld).1 in
  (pressFavorite storageWorks remoteSeven freshWorld).2 = inr JsUndefined
  ∧ (pressFavorite storageWorks remoteSeven freshWorld).2
    ≠ inr (JsBoolean (isFavoriteIn (idMeal remoteSeven) (storedFavorites w'))).
Proof.
  split; [vm_compute; reflexivity|]. vm_compute. discriminate.
Qed.

(** ** Enrichment *)

Section Pool.

Context {A : Type}.
Implicit Types (st : Pool A) (ts : list (Prog A)) (p : Prog A).

Lemma deliver_tasks answer i st :
  tasks (deliver answer i st) = alter (respond (answer i)) i (tasks st).
Proof.
  unfold deliver. apply list_eq. intros j. rewrite list_lookup_alter.
  destruct (tasks st !! i) as [[a|e|X c k]|] eqn:E; simpl;
    try (case_decide; [by subst; rewrite E|done]).
  rewrite list_lookup_insert. apply lookup_lt_Some in E as Hlt.
  destruct (decide (i = j)) as [->|Hne].
  - rewrite decide_True by done. done.
  - rewrite decide_False by tauto. done.
Qed.

Lemma runSchedule_snoc answer sched i st :
  runSchedule answer (sched ++ [i]) st
  = deliver answer i (runSchedule answer sched st).
Proof. unfold runSchedule. by rewrite foldl_snoc. Qed.

Lemma served_snoc k sched i :
  served k (sched ++ [i]) = served k sched + (if decide (i = k) then 1 else 0).
Proof.
  unfold served. rewrite filter_app, length_app. f_equal.
  rewrite filter_cons, filter_nil. by case_decide.
Qed.

Lemma runSchedule_tasks answer sched st k :
  tasks (runSchedule answer sched st) !! k
  = Nat.iter (served k sched) (respond (answer k)) <$> tasks st !! k.
Proof.
  induction sched as [|i sched IH] using rev_ind.
  - simpl. by destruct (tasks st !! k).
  - rewrite runSchedule_snoc, deliver_tasks, list_lookup_alter, served_snoc.
    case_decide; subst.
    + rewrite IH, Nat.add_1_r. by destruct (tasks st !! k).
    + by rewrite IH, Nat.add_0_r.
Qed.

Lemma allFulfilled_pending ts i p :
  ts !! i = Some p → fulfilled p = None → allFulfilled ts = None.
Proof.
  intros Hi Hp. apply mapM_None, Exists_exists. exists p. split; [|done].
  by eapply list_elem_of_lookup_2.
Qed.

Lemma budget_insert ts i p p' :
  ts !! i = Some p →
  sum_list_with budget (<[i := p']> ts) + budget p
  = sum_list_with budget ts + budget p'.
Proof.
  revert i. induction ts as [|q ts IH]; intros [|i] Hi; try done; simpl in *.
  - injection Hi as ->. lia.
  - specialize (IH i Hi). lia.
Qed.

Lemma inFlightCalls_length st : length (inFlightCalls st) ≤ length (tasks st).
Proof.
  unfold inFlightCalls. induction (tasks st) as [|p ts IH]; [done|].
  simpl. destruct (pendingCall p); simpl.
  - apply le_n_S, IH.
  - etrans; [apply IH|]. apply Nat.le_succ_diag_r.
Qed.

End Pool.

Lemma deliver_step {A} answer i (st : Pool A) p :
  tasks st !! i = Some p →
  deliver answer i st
  = match pendingCall p with
    | None => st
    | Some _ =>
        let p' := respond (answer i) p in
        mkPool (<[i := p']> (tasks st))
          (issued st ++ match pendingCall p' with Some c' => [(i, c')] | None => [] end)
          match outcome st with
          | Some o => Some o
          | None =>
              match p' with
              | Throw e => Some (inl e)
              | Ret _ => inr <$> allFulfilled (<[i := p']> (tasks st))
              | Call _ _ => None
              end
          end
    end.
Proof. unfold deliver. intros ->. by destruct p. Qed.

Lemma deliver_idle {A} answer i (st : Pool A) :
  tasks st !! i = None → deliver answer i st = st.
Proof. unfold deliver. by intros ->. Qed.

Section Enrichment.

Variable answer : Oracle.
Variable ss : list Slot.

Lemma respond_enrichOne a s :
  respond a (enrichOne s)
  = match a _ (GetNutritionByIngredient (s_name s)) with
    | inl _ => Ret (degraded s)
    | inr nut => afterNutrition s nut
    end.
Proof. unfold enrichOne, afterNutrition. simpl. by destruct (a _ _). Qed.

Lemma respond_afterNutrition a s nut :
  respond a (afterNutrition s nut)
  = Ret match a _ (GetAllergenFlags (s_name s)) with
        | inl _ => degraded s
        | inr aler => mkIngredientInfo (s_name s) (s_measure s) nut aler
        end.
Proof. unfold afterNutrition. simpl. by destruct (a _ _). Qed.

Lemma respond_phase a s p : Phase a s p → Phase a s (respond a p).
Proof.
  intros [->|[(nut & Hn & ->)| ->]].
  - rewrite respond_enrichOne.
    destruct (a _ (GetNutritionByIngredient (s_name s))) as [e|nut] eqn:E.
    + right; right. unfold enriched. by rewrite E.
    + right; left. by exists nut.
  - rewrite respond_afterNutrition. right; right. unfold enriched.
    rewrite Hn. by destruct (a _ (GetAllergenFlags (s_name s))).
  - by right; right.
Qed.

Lemma iter_phase a s c : Phase a s (Nat.iter c (respond a) (enrichOne s)).
Proof.
  induction c as [|c IH]; [by left|].
  change (Nat.iter (S c) ?f ?x) with (f (Nat.iter c f x)).
  by apply respond_phase.
Qed.

Lemma iter_done a s c :
  2 ≤ c → Nat.iter c (respond a) (enrichOne s) = Ret (enriched a s).
Proof.
  intros Hc. replace c with (c - 2 + 2) by lia. clear Hc.
  induction (c - 2) as [|c' IH].
  2:{ change (Nat.iter (S c' + 2) ?f ?x) with (f (Nat.iter (c' + 2) f x)).
      by rewrite IH. }
  change (Nat.iter (0 + 2) ?f ?x) with (f (f x)).
  rewrite respond_enrichOne. unfold enriched.
  destruct (a _ (GetNutritionByIngredient (s_name s))) as [e|nut]; [done|].
  rewrite respond_afterNutrition.
  by destruct (a _ (GetAllergenFlags (s_name s))).
Qed.

Lemma task_at sched k s :
  ss !! k = Some s →
  tasks (runSchedule answer sched (startAll (enrichOne <$> ss))) !! k
  = Some (Nat.iter (served k sched) (respond (answer k)) (enrichOne s)).
Proof.
  intros Hk. rewrite runSchedule_tasks. simpl.
  by rewrite list_lookup_fmap, Hk.
Qed.

Lemma task_phase sched k s :
  ss !! k = Some s →
  ∃ p, tasks (runSchedule answer sched (startAll (enrichOne <$> ss))) !! k = Some p
       ∧ Phase (answer k) s p.
Proof. intros Hk. eexists. split; [by apply task_at|apply iter_phase]. Qed.

Lemma tasks_length sched :
  length (tasks (runSchedule answer sched (startAll (enrichOne <$> ss)))) = length ss.
Proof.
  induction sched as [|i sched IH] using rev_ind.
  - simpl. apply length_fmap.
  - by rewrite runSchedule_snoc, deliver_tasks, length_alter.
Qed.

Lemma task_none sched k :
  ss !! k = None → tasks (runSchedule answer sched (startAll (enrichOne <$> ss))) !! k = None.
Proof.
  intros Hk%lookup_ge_None. apply lookup_ge_None. by rewrite tasks_length.
Qed.

Lemma phase_pending a s p :
  Phase a s p →
  pendingCall p = Some (Invoked (GetNutritionByIngredient (s_name s))) ∧ p = enrichOne s
  ∨ pendingCall p = Some (Invoked (GetAllergenFlags (s_name s)))
    ∧ (∃ nut, a _ (GetNutritionByIngredient (s_name s)) = inr nut
              ∧ p = afterNutrition s nut)
  ∨ pendingCall p = None ∧ p = Ret (enriched a s).
Proof.
  intros [->|[(nut & Hn & ->)| ->]].
  - by left.
  - right; left. split; [done|]. by exists nut.
  - by right; right.
Qed.

Lemma respond_later a s p :
  Phase a s p →
  pendingCall (respond a p) ≠ Some (Invoked (GetNutritionByIngredient (s_name s))).
Proof.
  intros [->|[(nut & Hn & ->)| ->]].
  - rewrite respond_enrichOne.
    by destruct (a _ (GetNutritionByIngredient (s_name s))).
  - by rewrite respond_afterNutrition.
  - done.
Qed.

Lemma startCalls_enrich j :
  startCalls j (enrichOne <$> ss)
  = imap (λ k s, (j + k, Invoked (GetNutritionByIngredient (s_name s)))) ss.
Proof.
  revert j. induction ss as [|s l IH]; intros j; [done|].
  rewrite fmap_cons, imap_cons. simpl. rewrite Nat.add_0_r, IH. f_equal.
  apply imap_ext. intros k s' _. simpl. f_equal. lia.
Qed.

Lemma allergenIssued_start j k :
  allergenIssued k (startCalls j (enrichOne <$> ss)) = false.
Proof.
  revert j. induction ss as [|s l IH]; intros j; [done|].
  simpl. rewrite andb_false_r. apply IH.
Qed.

Lemma allergenIssued_app k l l' :
  allergenIssued k (l ++ l') = allergenIssued k l || allergenIssued k l'.
Proof. apply existsb_app. Qed.

Lemma none_rejected : omap rejected (enrichOne <$> ss) = [].
Proof. induction ss as [|s l IH]; [done|]. exact IH. Qed.

Lemma budget_start : sum_list_with budget (enrichOne <$> ss) = length ss.
Proof.
  induction ss as [|s l IH]; [done|].
  change (sum_list_with budget (enrichOne <$> s :: l))
    with (S (sum_list_with budget (enrichOne <$> l))).
  by rewrite IH.
Qed.

Lemma served_mono k sched i : served k sched ≤ served k (sched ++ [i]).
Proof. rewrite served_snoc. lia. Qed.

(** What holds of the pool under every schedule: the promise of
    [Promise.all] is settled exactly when every function has returned;
    an allergen call was issued only by a function that was served its
    nutrition, successfully; and every call issued is paid for by a
    function that awaited its nutrition. *)
Lemma pool_invariant sched :
  let st := runSchedule answer sched (startAll (enrichOne <$> ss)) in
  outcome st = inr <$> allFulfilled (tasks st)
  ∧ (∀ k, allergenIssued k (issued st) = true →
       1 ≤ served k sched
       ∧ ∃ s nut, ss !! k = Some s ∧ answer k _ (GetNutritionByIngredient (s_name s)) = inr nut)
  ∧ length (issued st) + sum_list_with budget (tasks st) ≤ 2 * length ss.
Proof.
  induction sched as [|i sched IH] using rev_ind.
  { simpl. rewrite none_rejected. split; [done|]. split.
    - intros k. by rewrite allergenIssued_start.
    - rewrite startCalls_enrich, length_imap, budget_start. lia. }
  destruct IH as (Hout & Hal & Hbound). simpl.
  rewrite runSchedule_snoc.
  set (st := runSchedule answer sched (startAll (enrichOne <$> ss))) in *.
  destruct (ss !! i) as [s|] eqn:Hi.
  2:{ rewrite deliver_idle by by apply task_none.
      split; [done|]. split; [|done].
      intros k Hk. destruct (Hal k Hk) as [? ?].
      split; [|done]. etrans; [done|apply served_mono]. }
  destruct (task_phase sched i s Hi) as (p & Hp & Hphase). fold st in Hp.
  assert (Hlt : i < length (tasks st)) by by eapply lookup_lt_Some.
  assert (Hold : ∀ k, allergenIssued k (issued st) = true →
            1 ≤ served k (sched ++ [i])
            ∧ ∃ s nut, ss !! k = Some s ∧ answer k _ (GetNutritionByIngredient (s_name s)) = inr nut).
  { intros k Hk. destruct (Hal k Hk) as [? ?].
    split; [|done]. etrans; [done|apply served_mono]. }
  rewrite (deliver_step _ _ _ p Hp).
  apply phase_pending in Hphase as [[Hc ->]|[[Hc (nut & Hn & ->)]|[Hc ->]]];
    rewrite Hc; [| |done].
  - (* the nutrition arrives *)
    cbv zeta. rewrite respond_enrichOne.
    pose proof (budget_insert (tasks st) i (enrichOne s)) as Hb.
    destruct (answer i _ (GetNutritionByIngredient (s_name s))) as [e|nut] eqn:Hn; simpl.
    + rewrite app_nil_r. split.
      { rewrite Hout, (allFulfilled_pending _ i _ Hp) by done. done. }
      split; [done|].
      specialize (Hb (Ret (degraded s)) Hp).
      change (budget (enrichOne s)) with 1 in Hb.
      change (budget (Ret (degraded s))) with 0 in Hb. lia.
    + split.
      { rewrite Hout, (allFulfilled_pending _ i _ Hp) by done.
        rewrite (allFulfilled_pending (<[i:=_]> _) i (afterNutrition s nut));
          [done|by apply list_lookup_insert_eq|done]. }
      split.
      { intros k. rewrite allergenIssued_app, orb_true_iff.
        intros [Hk|Hk]; [by apply Hold|].
        simpl in Hk. rewrite orb_false_r, andb_true_r in Hk.
        apply Nat.eqb_eq in Hk as ->. split.
        - rewrite served_snoc, decide_True by done. lia.
        - by exists s, nut. }
      specialize (Hb (afterNutrition s nut) Hp). rewrite length_app.
      change (budget (enrichOne s)) with 1 in Hb.
      change (budget (afterNutrition s nut)) with 0 in Hb. simpl. lia.
  - (* the allergens arrive *)
    cbv zeta. rewrite respond_afterNutrition. simpl. rewrite app_nil_r.
    split.
    { rewrite Hout, (allFulfilled_pending _ i _ Hp) by done. done. }
    split; [done|].
    pose proof (budget_insert (tasks st) i (afterNutrition s nut)
                  (Ret match answer i _ (GetAllergenFlags (s_name s)) with
                       | inl _ => degraded s
                       | inr aler => mkIngredientInfo (s_name s) (s_measure s) nut aler
                       end) Hp) as Hb.
    change (budget (afterNutrition s nut)) with 0 in Hb.
    change (budget (Ret ?x)) with 0 in Hb. lia.
Qed.

Lemma outcome_result sched r :
  outcome (runSchedule answer sched (startAll (enrichOne <$> ss))) = Some r →
  r = inr (enrichedAll answer ss)
  ∧ ∀ k, inFlight (runSchedule answer sched (startAll (enrichOne <$> ss))) k = None.
Proof.
  destruct (pool_invariant sched) as (Hout & _). simpl in Hout.
  pose proof (tasks_length sched) as Htl.
  set (st := runSchedule answer sched (startAll (enrichOne <$> ss))) in *. rewrite Hout.
  destruct (allFulfilled (tasks st)) as [infos|] eqn:Hall; [|done].
  intros [= <-]. apply mapM_Some in Hall.
  assert (Hlen : length infos = length ss).
  { by rewrite <- (Forall2_length _ _ _ Hall). }
  split.
  - f_equal. apply list_eq. intros k. unfold enrichedAll.
    rewrite list_lookup_imap. destruct (ss !! k) as [s|] eqn:Hk; simpl.
    + destruct (task_phase sched k s Hk) as (p & Hp & Hphase). fold st in Hp.
      destruct (Forall2_lookup_l _ _ _ _ _ Hall Hp) as (info & -> & Hinfo).
      apply phase_pending in Hphase as [[_ ->]|[[_ (nut & _ & ->)]|[_ ->]]];
        try done.
      all: simpl in Hinfo; by injection Hinfo as <-.
    + apply lookup_ge_None. apply lookup_ge_None in Hk. lia.
  - intros k. unfold inFlight.
    destruct (tasks st !! k) as [p|] eqn:Hp; [|done]. simpl.
    destruct (Forall2_lookup_l _ _ _ _ _ Hall Hp) as (info & _ & Hinfo).
    by destruct p.
Qed.

Lemma outcome_complete sched :
  (∀ k, k < length ss → 2 ≤ served k sched) →
  outcome (runSchedule answer sched (startAll (enrichOne <$> ss))) = Some (inr (enrichedAll answer ss)).
Proof.
  intros Hserved. destruct (pool_invariant sched) as (-> & _).
  replace (allFulfilled _) with (Some (enrichedAll answer ss)); [done|].
  symmetry. apply mapM_Some, Forall2_same_length_lookup. split.
  { unfold enrichedAll. by rewrite tasks_length, length_imap. }
  intros k p info Hp Hinfo. unfold enrichedAll in Hinfo.
  rewrite list_lookup_imap in Hinfo.
  destruct (ss !! k) as [s|] eqn:Hk; [|done]. injection Hinfo as <-.
  rewrite (task_at sched k s Hk) in Hp. injection Hp as <-.
  rewrite iter_done; [done|]. apply Hserved. by eapply lookup_lt_Some.
Qed.

Lemma nutrition_before_allergens sched k s :
  ss !! k = Some s →
  inFlight (runSchedule answer sched (startAll (enrichOne <$> ss))) k
    = Some (Invoked (GetNutritionByIngredient (s_name s))) →
  allergenIssued k (issued (runSchedule answer sched (startAll (enrichOne <$> ss)))) = false.
Proof.
  intros Hk Hfl. apply not_true_is_false. intros Hal.
  destruct (pool_invariant sched) as (_ & Hinv & _).
  destruct (Hinv k Hal) as [Hserved _].
  unfold inFlight in Hfl. rewrite (task_at sched k s Hk) in Hfl. simpl in Hfl.
  destruct (served k sched) as [|c]; [lia|].
  change (Nat.iter (S c) ?f ?x) with (f (Nat.iter c f x)) in Hfl.
  by eapply respond_later; [apply iter_phase|].
Qed.

Lemma enriched_fields a s :
  name (enriched a s) = s_name s ∧ measure (enriched a s) = s_measure s.
Proof.
  unfold enriched.
  by destruct (a _ (GetNutritionByIngredient (s_name s))),
             (a _ (GetAllergenFlags (s_name s))).
Qed.

End Enrichment.

(** The entries of the settled promise, for any list of slots. *)
Lemma enrichment_entries (answer : Oracle) (ss : list Slot) (sched : list nat) :
  let st := runSchedule answer sched (startAll (enrichOne <$> ss)) in
  (∀ r, outcome st = Some r →
     ∃ infos, r = inr infos
       ∧ length infos = length ss
       ∧ ∀ k s, ss !! k = Some s →
           ∃ info, infos !! k = Some info
             ∧ name info = s_name s
             ∧ measure info = s_measure s
             ∧ (∀ nut aler,
                  answer k _ (GetNutritionByIngredient (s_name s)) = inr nut →
                  answer k _ (GetAllergenFlags (s_name s)) = inr aler →
                  nutrition info = nut ∧ allergens info = aler)
             ∧ ((∃ e, answer k _ (GetNutritionByIngredient (s_name s)) = inl e)
                ∨ (∃ e, answer k _ (GetAllergenFlags (s_name s)) = inl e) →
                nutrition info = mkNutrition 0 0 0 0 0 ∧ allergens info = []))
  ∧ ((∀ k, k < length ss → 2 ≤ served k sched) → is_Some (outcome st))
  ∧ (∀ k p, tasks st !! k = Some p → rejected p = None).
Proof.
  intros st. split; [|split].
  - intros r Hr. destruct (outcome_result answer ss sched r Hr) as [-> _].
    exists (enrichedAll answer ss). split; [reflexivity|]. split.
    { unfold enrichedAll. apply length_imap. }
    intros k s Hk. exists (enriched (answer k) s). split.
    { unfold enrichedAll. rewrite list_lookup_imap, Hk. reflexivity. }
    destruct (enriched_fields (answer k) s) as [Hname Hmeasure].
    split; [exact Hname|]. split; [exact Hmeasure|]. unfold enriched. split.
    + intros nut aler -> ->. split; reflexivity.
    + intros [[e ->]|[e ->]]; [split; reflexivity|].
      destruct (answer k _ (GetNutritionByIngredient (s_name s)));
        split; reflexivity.
  - intros Hserved. eexists. apply outcome_complete. exact Hserved.
  - intros k p Hp. destruct (ss !! k) as [s|] eqn:Hk.
    + destruct (task_phase answer ss sched k s Hk) as (p' & Hp' & Hphase).
      fold st in Hp'. rewrite Hp in Hp'. injection Hp' as <-.
      destruct Hphase as [->|[(nut & _ & ->)| ->]]; reflexivity.
    + apply (task_none answer ss sched) in Hk. fold st in Hk. congruence.
Qed.

(** C2. Under every schedule of the answers and whatever each call is
    answered, [Promise.all] over the enrichment functions never rejects;
    when it is settled it holds one entry per extracted slot, in slot
    order, with the name and measure of the slot: the fetched nutrition and
    allergens when both calls of the slot were answered, and zero
    nutrition with no allergens when one of them was rejected. It is
    settled as soon as every function was served twice. *)
Theorem enrichment_total_and_isolated (dish : Dish) (answer : Oracle)
    (sched : list nat) :
  let ss := extractSlots dish in
  let st := runSchedule answer sched (startAll (enrichOne <$> ss)) in
  (∀ r, outcome st = Some r →
     ∃ infos, r = inr infos
       ∧ length infos = length ss
       ∧ ∀ k s, ss !! k = Some s →
           ∃ info, infos !! k = Some info
             ∧ name info = s_name s
             ∧ measure info = s_measure s
             ∧ (∀ nut aler,
                  answer k _ (GetNutritionByIngredient (s_name s)) = inr nut →
                  answer k _ (GetAllergenFlags (s_name s)) = inr aler →
                  nutrition info = nut ∧ allergens info = aler)
             ∧ ((∃ e, answer k _ (GetNutritionByIngredient (s_name s)) = inl e)
                ∨ (∃ e, answer k _ (GetAllergenFlags (s_name s)) = inl e) →
                nutrition info = mkNutrition 0 0 0 0 0 ∧ allergens info = []))
  ∧ ((∀ k, k < length ss → 2 ≤ served k sched) → is_Some (outcome st))
  ∧ (∀ k p, tasks st !! k = Some p → rejected p = None).
Proof. exact (enrichment_entries answer (extractSlots dish) sched). Qed.

Lemma enrichment_total_and_isolated_witness :
  ∃ infos,
    outcome (runSchedule secondFails [2; 0; 1; 0; 2; 1]
               (startAll (enrichOne <$> extractSlots threeIngredients)))
    = Some (inr infos)
    ∧ length infos = 3
    ∧ infos !! 1 = Some (mkIngredientInfo (js "B") None (mkNutrition 0 0 0 0 0) []).
Proof.
  destruct (enrichment_total_and_isolated threeIngredients secondFails
              [2; 0; 1; 0; 2; 1]) as (H & Hdone & _).
  destruct Hdone as [r Hr].
  - intros k Hk. vm_compute in Hk.
    destruct k as [|[|[|k]]]; vm_compute; lia.
  - destruct (H r Hr) as (infos & -> & Hlen & Hslots).
    exists infos. split; [exact Hr|]. split; [exact Hlen|].
    destruct (Hslots 1 (mkSlot (js "B") None)) as (info & Hinfo & Hn & Hm & _ & Hfail).
    { vm_compute. reflexivity. }
    destruct Hfail as [Hnut Hal].
    { left. exists (Err "offline"). vm_compute. reflexivity. }
    rewrite Hinfo. f_equal. destruct info as [n m nu al].
    cbn [name measure nutrition allergens s_name s_measure] in Hn, Hm, Hnut, Hal.
    rewrite Hn, Hm, Hnut, Hal. reflexivity.
Defined.

(** How the calls of the enrichment are ordered, for any list of slots. *)
Lemma enrichment_order (answer : Oracle) (ss : list Slot) (sched : list nat) :
  let init := startAll (enrichOne <$> ss) in
  let st := runSchedule answer sched init in
  issued init = imap (λ k s, (k, Invoked (GetNutritionByIngredient (s_name s)))) ss
  ∧ (∀ k s, ss !! k = Some s →
       inFlight st k = Some (Invoked (GetNutritionByIngredient (s_name s)))
         ∧ allergenIssued k (issued st) = false
       ∨ inFlight st k = Some (Invoked (GetAllergenFlags (s_name s)))
         ∧ (∃ nut, answer k _ (GetNutritionByIngredient (s_name s)) = inr nut)
       ∨ inFlight st k = None)
  ∧ (∀ k, allergenIssued k (issued st) = true →
       ∃ s nut, ss !! k = Some s
                ∧ answer k _ (GetNutritionByIngredient (s_name s)) = inr nut)
  ∧ (∀ r, outcome st = Some r → ∀ k, inFlight st k = None)
  ∧ ((∀ k, k < length ss → 2 ≤ served k sched) → is_Some (outcome st))
  ∧ length (inFlightCalls st) ≤ length ss
  ∧ length (issued st) ≤ 2 * length ss.
Proof.
  intros init st. split; [|split; [|split; [|split; [|split; [|split]]]]].
  - apply (startCalls_enrich ss 0).
  - intros k s Hk.
    destruct (task_phase answer ss sched k s Hk) as (p & Hp & Hphase).
    fold init in Hp. fold st in Hp.
    assert (Hfl : inFlight st k = pendingCall p).
    { unfold inFlight. rewrite Hp. reflexivity. }
    apply phase_pending in Hphase as [[Hc _]|[[Hc (nut & Hn & _)]|[Hc _]]];
      rewrite Hfl, Hc.
    + left. split; [reflexivity|].
      apply (nutrition_before_allergens answer ss sched k s Hk).
      fold init. fold st. rewrite Hfl. exact Hc.
    + right; left. split; [reflexivity|]. exists nut. exact Hn.
    + right; right. reflexivity.
  - intros k Hk.
    destruct (pool_invariant answer ss sched) as (_ & Hal & _).
    destruct (Hal k Hk) as [_ H]. exact H.
  - intros r Hr. apply (outcome_result answer ss sched r Hr).
  - intros Hserved. eexists. apply outcome_complete. exact Hserved.
  - etrans; [apply inFlightCalls_length|].
    subst st init. rewrite (tasks_length answer ss sched). reflexivity.
  - destruct (pool_invariant answer ss sched) as (_ & _ & Hb).
    fold init in Hb. fold st in Hb. lia.
Qed.

(** C8, as amended. The enrichment functions are all started together,
    each issuing its nutrition call, in slot order; a function issues its
    allergen call only after its nutrition call was answered, and only if
    that answer was not a rejection, so the two calls of one ingredient are
    never in flight together. [Promise.all] is settled only when no
    function is waiting any more, and is settled once each was served
    twice. At most one call per slot is in flight (at most 20), and at
    most two calls per slot are ever issued (at most 40). *)
Theorem enrichment_fan_out_and_join (dish : Dish) (answer : Oracle)
    (sched : list nat) :
  let ss := extractSlots dish in
  let init := startAll (enrichOne <$> ss) in
  let st := runSchedule answer sched init in
  issued init = imap (λ k s, (k, Invoked (GetNutritionByIngredient (s_name s)))) ss
  ∧ (∀ k s, ss !! k = Some s →
       inFlight st k = Some (Invoked (GetNutritionByIngredient (s_name s)))
         ∧ allergenIssued k (issued st) = false
       ∨ inFlight st k = Some (Invoked (GetAllergenFlags (s_name s)))
         ∧ (∃ nut, answer k _ (GetNutritionByIngredient (s_name s)) = inr nut)
       ∨ inFlight st k = None)
  ∧ (∀ k, allergenIssued k (issued st) = true →
       ∃ s nut, ss !! k = Some s
                ∧ answer k _ (GetNutritionByIngredient (s_name s)) = inr nut)
  ∧ (∀ r, outcome st = Some r → ∀ k, inFlight st k = None)
  ∧ ((∀ k, k < length ss → 2 ≤ served k sched) → is_Some (outcome st))
  ∧ length (inFlightCalls st) ≤ length ss
  ∧ length (issued st) ≤ 2 * length ss
  ∧ length ss ≤ 20.
Proof.
  intros ss init st.
  pose proof (enrichment_order answer ss sched) as (H1 & H2 & H3 & H4 & H5 & H6 & H7).
  repeat (split; [assumption|]). apply extractSlots_length.
Qed.

Lemma enrichment_fan_out_and_join_witness :
  is_Some (outcome (runSchedule secondFails [0; 1; 2; 0; 1; 2]
                      (startAll (enrichOne <$> extractSlots threeIngredients)))).
Proof.
  destruct (enrichment_fan_out_and_join threeIngredients secondFails
              [0; 1; 2; 0; 1; 2]) as (_ & _ & _ & _ & Hdone & _).
  apply Hdone. intros k Hk.
  destruct k as [|[|[|k]]]; vm_compute; vm_compute in Hk; lia.
Defined.

(** C8, as stated, fails: when the functions are started only the
    nutrition call of the ingredient is issued, not its allergen call; and
    when the nutrition call is rejected the allergen call is never issued,
    although the entry of the ingredient is produced. *)
Lemma enrichment_concurrent_counterexample :
  let ss := extractSlots remoteSeven in
  let init := startAll (enrichOne <$> ss) in
  let st := runSchedule (λ _ _ _, inl (Err "offline")) [0; 0] init in
  ss = [mkSlot (js "salt") None]
  ∧ issued init = [(0, Invoked (GetNutritionByIngredient (js "salt")))]
  ∧ ¬ (∀ k s, ss !! k = Some s →
         (k, Invoked (GetAllergenFlags (s_name s))) ∈ issued init)
  ∧ issued st = [(0, Invoked (GetNutritionByIngredient (js "salt")))]
  ∧ outcome st = Some (inr [mkIngredientInfo (js "salt") None (mkNutrition 0 0 0 0 0) []]).
Proof.
  assert (Hss : extractSlots remoteSeven = [mkSlot (js "salt") None])
    by (vm_compute; reflexivity).
  cbv zeta. rewrite Hss. split; [reflexivity|]. split; [reflexivity|].
  split; [|split; reflexivity].
  intros H. specialize (H 0 (mkSlot (js "salt") None) eq_refl).
  apply list_elem_of_singleton in H.
  apply (f_equal (λ x, isAllergenCall x.2)) in H. discriminate H.
Qed.

(** * Further properties *)

(** ** The history list, continued *)

Lemma filter_take_all (P : HistoryEntry → Prop) `{!∀ e, Decision (P e)} k
    (h : list HistoryEntry) :
  filter P (take k (filter P h)) = take k (filter P h).
Proof.
  apply filter_all, Forall_take, Forall_forall.
  by intros e [He _]%list_elem_of_filter.
Qed.

(** X1. Recording a view of the dish that was just recorded changes
    nothing but the entry at the front: two views of one dish in a row
    leave the list that the second view alone would leave. *)
Theorem recordView_again now1 now2 i n1 n2 t1 t2 (h : list HistoryEntry) :
  recordView now2 i n2 t2 (recordView now1 i n1 t1 h)
  = recordView now2 i n2 t2 h.
Proof.
  rewrite (recordView_cons now1), !(recordView_cons now2). f_equal.
  rewrite filter_cons. case_decide; [done|].
  rewrite filter_take_all, take_take. f_equal.
Qed.

Lemma recordView_unique now i n t (h : list HistoryEntry) :
  NoDup (h_idMeal <$> h) → NoDup (h_idMeal <$> recordView now i n t h).
Proof.
  intros Hnd. rewrite recordView_take, fmap_take.
  eapply sublist_NoDup; [|apply sublist_take].
  rewrite fmap_cons. apply NoDup_cons. split.
  - intros (e & Heq & [He _]%list_elem_of_filter)%list_elem_of_fmap.
    by apply He.
  - eapply sublist_NoDup; [exact Hnd|].
    apply fmap_sublist, sublist_filter.
Qed.

(** X2. Whatever the clock readings, a history built from the empty list
    by recording views has one entry per identifier and at most 50
    entries. *)
Theorem recordViews_unique_bounded (views : list View) :
  NoDup (h_idMeal <$> recordViews views [])
  ∧ length (recordViews views []) ≤ MAX_HISTORY.
Proof.
  induction views as [|v vs IH] using rev_ind.
  - split; [constructor|]. simpl. unfold MAX_HISTORY. lia.
  - rewrite recordViews_snoc. split.
    + apply recordView_unique, IH.
    + apply recordView_length.
Qed.

(** X3. A view of a dish that is in the list, at any position, moves its
    entry to the front with the new name, thumbnail and time; the entries
    before it shift down by one, the entries after it stay where they are,
    and the length is unchanged. *)
Theorem recordView_promotes now i n t (before after : list HistoryEntry) e :
  h_idMeal e = i →
  Forall (λ x, h_idMeal x ≠ i) before →
  Forall (λ x, h_idMeal x ≠ i) after →
  length (before ++ e :: after) ≤ MAX_HISTORY →
  recordView now i n t (before ++ e :: after)
  = mkHist i n t now :: before ++ after
  ∧ length (recordView now i n t (before ++ e :: after))
    = length (before ++ e :: after).
Proof.
  intros He Hb Ha Hlen.
  assert (Hf : filter (λ x, h_idMeal x ≠ i) (before ++ e :: after) = before ++ after).
  { rewrite filter_app, filter_cons, !filter_all by done.
    by rewrite decide_False by (intros H; by apply H). }
  rewrite recordView_cons, Hf.
  rewrite length_app in Hlen. simpl in Hlen.
  rewrite take_ge by (rewrite length_app; unfold MAX_HISTORY in *; lia).
  split; [done|]. simpl. rewrite !length_app. simpl. lia.
Qed.

Lemma recordView_promotes_witness :
  recordView 12 (js "a") (js "Ampesi") (js "a2.jpg") twoViewed
  = [mkHist (js "a") (js "Ampesi") (js "a2.jpg") 12;
     mkHist (js "b") (js "Banku") (js "b.jpg") 9]
  ∧ length (recordView 12 (js "a") (js "Ampesi") (js "a2.jpg") twoViewed) = 2.
Proof.
  apply (recordView_promotes 12 (js "a") (js "Ampesi") (js "a2.jpg")
           [mkHist (js "b") (js "Banku") (js "b.jpg") 9] []
           (mkHist (js "a") (js "Ampesi") (js "a.jpg") 5)).
  - reflexivity.
  - repeat constructor. vm_compute. discriminate.
  - constructor.
  - vm_compute. lia.
Defined.

(** X4. A view of a dish that is not in the list puts its entry in front
    of the first 49 entries: a list of fewer than 50 entries grows by one
    and keeps every entry, a longer one loses its entries from position 49
    on. *)
Theorem recordView_new_dish now i n t (h : list HistoryEntry) :
  Forall (λ x, h_idMeal x ≠ i) h →
  recordView now i n t h = mkHist i n t now :: take (MAX_HISTORY - 1) h
  ∧ (length h < MAX_HISTORY → recordView now i n t h = mkHist i n t now :: h)
  ∧ (MAX_HISTORY ≤ length h → length (recordView now i n t h) = MAX_HISTORY).
Proof.
  intros Hh. rewrite recordView_cons, filter_all by done.
  split; [done|]. split.
  - intros Hlen. f_equal. apply take_ge. lia.
  - intros Hlen. simpl. rewrite length_take. unfold MAX_HISTORY in *. lia.
Qed.

Lemma recordView_new_dish_witness :
  recordView 12 (js "c") (js "Chinchinga") (js "c.jpg") twoViewed
  = mkHist (js "c") (js "Chinchinga") (js "c.jpg") 12 :: twoViewed.
Proof.
  apply (recordView_new_dish 12 (js "c") (js "Chinchinga") (js "c.jpg") twoViewed).
  - repeat constructor; vm_compute; discriminate.
  - vm_compute. lia.
Defined.

Lemma recordViews_invariant_witness :
  HistoryInv (recordViews [mkView 5 (js "a") (js "Ampesi") (js "a.jpg");
                           mkView 9 (js "b") (js "Banku") (js "b.jpg")] [])
  ∧ Forall (λ e, ∃ v, v ∈ [mkView 5 (js "a") (js "Ampesi") (js "a.jpg");
                           mkView 9 (js "b") (js "Banku") (js "b.jpg")]
                      ∧ viewedAt e = v_now v)
      (recordViews [mkView 5 (js "a") (js "Ampesi") (js "a.jpg");
                    mkView 9 (js "b") (js "Banku") (js "b.jpg")] []).
Proof.
  apply recordViews_invariant. repeat constructor.
Defined.

(** ** The effects, continued *)

Lemma run_bind {A B} env (p : Prog A) (f : A → Prog B) w :
  run env (p ≫= f) w
  = match run env p w with
    | (w', inr a) => run env (f a) w'
    | (w', inl e) => (w', inl e)
    end.
Proof.
  revert w. induction p as [a|e|X c k IH]; intros w; try done.
  change (run env (Call c k ≫= f) w)
    with (let '(w', r) := handle env c (logCall (Invoked c) w) in
          run env (k r ≫= f) w').
  simpl. destruct (handle env c _) as [w' r]. apply IH.
Qed.

Lemma run_tryCatch {A} env (p : Prog A) (h : Error → Prog A) w :
  run env (tryCatch p h) w
  = match run env p w with
    | (w', inl e) => run env (h e) w'
    | (w', inr a) => (w', inr a)
    end.
Proof.
  revert w. induction p as [a|e|X c k IH]; intros w; try done.
  simpl. destruct (handle env c _) as [w' r]. apply IH.
Qed.

Lemma run_tryFinally {A} env (p : Prog A) (q : Prog unit) w :
  run env (tryFinally p q) w
  = match run env p w with
    | (w', r) =>
        match run env q w' with
        | (w'', inr _) => (w'', r)
        | (w'', inl e) => (w'', inl e)
        end
    end.
Proof.
  revert w. induction p as [a|e|X c k IH]; intros w.
  - simpl. change (bind q (λ _, Ret a)) with (q ≫= λ _, Ret a).
    rewrite run_bind. by destruct (run env q w) as [w' [e|[]]].
  - simpl. change (bind q (λ _, Throw e)) with (q ≫= λ _, Throw (A:=A) e).
    rewrite run_bind. by destruct (run env q w) as [w' [e'|[]]].
  - simpl. destruct (handle env c _) as [w' r]. apply IH.
Qed.

Lemma avoids_tryCatch {A} bad (p : Prog A) (h : Error → Prog A) :
  avoids bad p → (∀ e, avoids bad (h e)) → avoids bad (tryCatch p h).
Proof.
  intros Hp Hh. induction p as [a|e|X c k IH]; [done|apply Hh|].
  destruct Hp as [Hc Hk]. split; [done|]. intros r. by apply IH.
Qed.

Lemma avoids_tryFinally {A} bad (p : Prog A) (q : Prog unit) :
  avoids bad p → avoids bad q → avoids bad (tryFinally p q).
Proof.
  intros Hp Hq. induction p as [a|e|X c k IH].
  - by apply (avoids_bind bad q).
  - by apply (avoids_bind bad q).
  - destruct Hp as [Hc Hk]. split; [done|]. intros r. by apply IH.
Qed.

(** A part of the world that only calls of some kind change is left alone
    by a program that makes no such call. *)
Lemma avoids_keeps {T A} (part : World → T) bad env (p : Prog A) w :
  (∀ X (c : Event X) w0, bad (Invoked c) = false →
     part (handle env c (logCall (Invoked c) w0)).1 = part w0) →
  avoids bad p →
  part (run env p w).1 = part w.
Proof.
  intros Hpart. revert w. induction p as [a|e|X c k IH]; intros w Hp; [done..|].
  destruct Hp as [Hc Hk]. simpl.
  pose proof (Hpart X c w Hc) as Hw.
  destruct (handle env c (logCall (Invoked c) w)) as [w' r].
  simpl in Hw. rewrite <- Hw. by apply IH.
Qed.

Lemma favorites_kept env {X} (c : Event X) w :
  isFavoritesWrite (Invoked c) = false →
  favorites (handle env c (logCall (Invoked c) w)).1 = favorites w.
Proof.
  destruct c; simpl; try done.
  - by destruct (getItemFault env k).
  - destruct k; [done|]. by destruct (setItemFault env HISTORY_KEY).
Qed.

Lemma besidesFavorites_kept env {X} (c : Event X) w :
  touchesBesidesFavorites (Invoked c) = false →
  besidesFavorites (handle env c (logCall (Invoked c) w)).1 = besidesFavorites w.
Proof.
  destruct c; simpl; try done.
  - by destruct (getItemFault env k).
  - destruct k; [|done]. by destruct (setItemFault env FAVORITES_KEY).
Qed.

Lemma local_cells_kept env {X} (c : Event X) w :
  isLocalSetter (Invoked c) = false →
  (localMeal (ui (handle env c (logCall (Invoked c) w)).1),
   loadingLocal (ui (handle env c (logCall (Invoked c) w)).1))
  = (localMeal (ui w), loadingLocal (ui w)).
Proof.
  destruct c; simpl; try done.
  - by destruct (getItemFault env k).
  - by destruct (setItemFault env k), k.
Qed.

Lemma readList_avoids bad k :
  bad (Invoked (GetItem k)) = false → avoids bad (readList k).
Proof.
  intros Hk. unfold readList. apply avoids_bind; [by apply avoids_await|done].
Qed.

Lemma checkAndRecord_calls bad i n t :
  (∀ k, bad (Invoked (GetItem k)) = false) →
  (∀ v, bad (Invoked (SetItem HISTORY_KEY v)) = false) →
  (∀ b, bad (Invoked (SetIsFavorite b)) = false) →
  bad (Invoked DateNow) = false →
  avoids bad (checkAndRecord i n t).
Proof.
  intros Hget Hset Hfav Hnow. unfold checkAndRecord.
  apply avoids_bind; [by apply readList_avoids|]. intros favList.
  apply avoids_bind; [by apply avoids_await|]. intros _.
  apply avoids_bind; [by apply readList_avoids|]. intros histList.
  apply avoids_bind; [by apply avoids_await|]. intros now.
  by apply avoids_await.
Qed.

(** The calls the first effect can make, on any path. *)
Lemma resolveEffect_calls bad env i :
  (∀ k, bad (Invoked (GetItem k)) = false) →
  (∀ v, bad (Invoked (SetItem HISTORY_KEY v)) = false) →
  (∀ c, isUiSetter c = true → bad c = false) →
  (∀ b, bad (Invoked (SetIsFavorite b)) = false) →
  bad (Invoked DateNow) = false →
  bad (Invoked (GetMealDetails i)) = false →
  (∀ e, bad (Invoked (ConsoleError e)) = false) →
  avoids bad (resolveEffect env i).
Proof.
  intros Hget Hset Hui Hfav Hnow Hfetch Hlog. unfold resolveEffect.
  destruct (getMealById env i) as [m|].
  - apply avoids_bind; [by apply avoids_await, Hui|]. intros _.
    apply avoids_bind; [by apply avoids_await, Hui|]. intros _.
    apply avoids_bind; [by apply checkAndRecord_calls|]. intros _.
    by apply avoids_await, Hui.
  - apply avoids_tryFinally; [|by apply avoids_await, Hui].
    apply avoids_tryCatch; [|intros e; by apply avoids_await].
    apply avoids_bind; [by apply avoids_await|]. intros data.
    apply avoids_bind; [by apply avoids_await, Hui|]. intros _.
    by apply checkAndRecord_calls.
Qed.

Lemma toggleFavorite_calls bad b d :
  bad (Invoked (GetItem FAVORITES_KEY)) = false →
  (∀ v, bad (Invoked (SetItem FAVORITES_KEY v)) = false) →
  (∀ b', bad (Invoked (SetIsFavorite b')) = false) →
  avoids bad (toggleFavorite b d).
Proof.
  intros Hget Hset Hfav. unfold toggleFavorite.
  apply avoids_bind; [by apply readList_avoids|]. intros list.
  apply avoids_bind; [by apply avoids_await|]. intros _.
  apply avoids_bind; [by apply avoids_await|]. done.
Qed.

(** X6. The first effect never writes the favorites: on every path, found
    locally or not, whatever is rejected, the stored favorites are what
    they were; and it calls neither the nutrition nor the allergen
    service. *)
Theorem resolveEffect_keeps_favorites env i w :
  favorites (run env (resolveEffect env i) w).1 = favorites w
  ∧ ∃ cs, calls (run env (resolveEffect env i) w).1 = calls w ++ cs
          ∧ Forall (λ c, isFavoritesWrite c = false
                         ∧ isNutritionCall c = false
                         ∧ isAllergenCall c = false) cs.
Proof.
  split.
  - apply (avoids_keeps favorites isFavoritesWrite).
    + intros X c w0. apply favorites_kept.
    + apply resolveEffect_calls; try done. by intros [X []].
  - destruct (avoids_run
                (λ c, isFavoritesWrite c || isNutritionCall c || isAllergenCall c)
                env (resolveEffect env i) w) as (cs & Hcs & Hall).
    + apply resolveEffect_calls; try done. by intros [X []].
    + exists cs. split; [done|]. eapply Forall_impl; [done|].
      intros c Hc. simpl in Hc.
      by destruct (isFavoritesWrite c), (isNutritionCall c), (isAllergenCall c).
Qed.

(** X7. [toggleFavorite] touches the favorites and the favorite flag
    only: whatever is rejected, the stored history, the dish, the local
    meal, the two loading flags and the console are what they were, and it
    makes no remote call. *)
Theorem toggleFavorite_touches_favorites_only env d w :
  besidesFavorites (pressFavorite env d w).1 = besidesFavorites w
  ∧ ∃ cs, calls (pressFavorite env d w).1 = calls w ++ cs
          ∧ Forall (λ c, isRemote c = false) cs.
Proof.
  unfold pressFavorite. split.
  - apply (avoids_keeps besidesFavorites touchesBesidesFavorites).
    + intros X c w0. apply besidesFavorites_kept.
    + by apply toggleFavorite_calls.
  - apply avoids_run. by apply toggleFavorite_calls.
Qed.

Lemma besidesRecord_kept env {X} (c : Event X) w :
  touchesBesidesRecord (Invoked c) = false →
  besidesRecord (handle env c (logCall (Invoked c) w)).1 = besidesRecord w.
Proof.
  destruct c; simpl; try done.
  - by destruct (getItemFault env k).
  - destruct k; [done|]. by destruct (setItemFault env HISTORY_KEY).
Qed.

(** What the favorite check and history record do, by the first rejection
    they meet. *)
Lemma run_checkAndRecord env i n t w :
  (run env (checkAndRecord i n t) w).2
  = match firstStorageFault env with Some e => inl e | None => inr () end
  ∧ history (run env (checkAndRecord i n t) w).1
    = match firstStorageFault env with
      | Some _ => history w
      | None => Some (recordView (dateNow env) i n t (storedHistory w))
      end
  ∧ isFavorite (ui (run env (checkAndRecord i n t) w).1)
    = match getItemFault env FAVORITES_KEY with
      | Some _ => isFavorite (ui w)
      | None => isFavoriteIn i (storedFavorites w)
      end
  ∧ besidesRecord (run env (checkAndRecord i n t) w).1 = besidesRecord w.
Proof.
  split_and!.
  - unfold checkAndRecord, readList, firstStorageFault.
    destruct (getItemFault env FAVORITES_KEY) eqn:E1; simpl; rewrite ?E1; [done|].
    simpl.
    destruct (getItemFault env HISTORY_KEY) eqn:E2; simpl; rewrite ?E2; [done|].
    simpl. by destruct (setItemFault env HISTORY_KEY).
  - unfold checkAndRecord, readList, firstStorageFault.
    destruct (getItemFault env FAVORITES_KEY) eqn:E1; simpl; rewrite ?E1; [done|].
    simpl.
    destruct (getItemFault env HISTORY_KEY) eqn:E2; simpl; rewrite ?E2; [done|].
    simpl. by destruct (setItemFault env HISTORY_KEY).
  - unfold checkAndRecord, readList.
    destruct (getItemFault env FAVORITES_KEY) eqn:E1; simpl; rewrite ?E1; [done|].
    simpl.
    destruct (getItemFault env HISTORY_KEY) eqn:E2; simpl; rewrite ?E2; [done|].
    simpl. by destruct (setItemFault env HISTORY_KEY).
  - apply (avoids_keeps besidesRecord touchesBesidesRecord).
    + intros X c w0. apply besidesRecord_kept.
    + by apply checkAndRecord_calls.
Qed.

Lemma run_local env i m w :
  getMealById env i = Some m →
  run env (resolveEffect env i) w
  = match run env (checkAndRecord (m_id m) (m_name m) (thumbnail m))
            (afterLocalSetters m w) with
    | (w', inr _) => run env (await (SetLoadingLocal false)) w'
    | (w', inl e) => (w', inl e)
    end.
Proof.
  intros Hm. unfold resolveEffect. rewrite Hm.
  change (run env (await (SetLocalMeal m);; await (SetDish (localDish m));;
                   checkAndRecord (m_id m) (m_name m) (thumbnail m);;
                   await (SetLoadingLocal false)) w)
    with (run env (checkAndRecord (m_id m) (m_name m) (thumbnail m) ≫=
                   λ _, await (SetLoadingLocal false)) (afterLocalSetters m w)).
  apply run_bind.
Qed.

Lemma run_remote env i w :
  getMealById env i = None →
  run env (resolveEffect env i) w
  = match getMealDetails env i with
    | inl e =>
        run env (await (ConsoleError e);; await (SetLoadingDish false))
          (logCall (Invoked (GetMealDetails i)) w)
    | inr data =>
        match run env (checkAndRecord (idMeal data) (strMeal data) (strMealThumb data))
                (afterRemoteFetch i data w) with
        | (w', inr _) => run env (await (SetLoadingDish false)) w'
        | (w', inl e) =>
            run env (await (ConsoleError e);; await (SetLoadingDish false)) w'
        end
    end.
Proof.
  intros Hm. unfold resolveEffect. rewrite Hm.
  rewrite run_tryFinally, run_tryCatch.
  destruct (getMealDetails env i) as [e|data] eqn:Hd.
  - simpl. rewrite Hd. done.
  - change (run env (data ← await (GetMealDetails i); await (SetDish data);;
                     checkAndRecord (idMeal data) (strMeal data) (strMealThumb data)) w)
      with (let '(w', r) := (logCall (Invoked (GetMealDetails i)) w, getMealDetails env i) in
            run env (match r with inl e => Throw e | inr x => Ret x end ≫=
                     λ data, await (SetDish data);;
                       checkAndRecord (idMeal data) (strMeal data) (strMealThumb data)) w').
    rewrite Hd.
    change (run env (Ret data ≫= _) _)
      with (run env (checkAndRecord (idMeal data) (strMeal data) (strMealThumb data))
              (afterRemoteFetch i data w)).
    by destruct (run env (checkAndRecord _ _ _) _) as [w' [e|[]]].
Qed.

(** X8. A dish found locally, with AsyncStorage working: the effect
    completes; the history holds the view recorded on the stored list, the
    favorites are untouched, the flag tells whether the meal is among
    them, and the screen is the local one, whatever the cells of the
    enrichment hold. *)
Theorem local_dish_shown env i m w eu :
  getMealById env i = Some m →
  firstStorageFault env = None →
  let w' := (run env (resolveEffect env i) w).1 in
  (run env (resolveEffect env i) w).2 = inr ()
  ∧ history w'
    = Some (recordView (dateNow env) (m_id m) (m_name m) (thumbnail m)
              (storedHistory w))
  ∧ favorites w' = favorites w
  ∧ isFavorite (ui w') = isFavoriteIn (m_id m) (storedFavorites w)
  ∧ render (ui w') eu
    = inr (LocalDetails m (isFavoriteIn (m_id m) (storedFavorites w))).
Proof.
  intros Hm Hok w'. subst w'. rewrite (run_local env i m w Hm).
  destruct (run_checkAndRecord env (m_id m) (m_name m) (thumbnail m)
              (afterLocalSetters m w)) as (Hr & Hh & Hf & Hb).
  rewrite Hok in Hr, Hh.
  assert (Hg : getItemFault env FAVORITES_KEY = None).
  { unfold firstStorageFault in Hok. by destruct (getItemFault env FAVORITES_KEY). }
  rewrite Hg in Hf.
  destruct (run env (checkAndRecord _ _ _) _) as [w1 r]. simpl in Hr, Hh, Hf, Hb.
  subst r. unfold besidesRecord in Hb. simpl in Hb.
  injection Hb as Hfav Hdish Hlocal Hld Hll Hcon.
  simpl. rewrite Hh, Hfav, Hf. unfold render. simpl. rewrite Hlocal. simpl.
  done.
Qed.

Lemma local_dish_shown_witness :
  let w' := (run bothSources (resolveEffect bothSources (js "7")) returningWorld).1 in
  history w'
  = Some (mkHist (js "7") (js "Jollof") (js "jollof.png") 1000 :: twoViewed)
  ∧ render (ui w') initialEnrichUi = inr (LocalDetails jollof true).
Proof.
  destruct (local_dish_shown bothSources (js "7") jollof returningWorld
              initialEnrichUi) as (_ & Hh & _ & _ & Hr).
  - vm_compute. reflexivity.
  - vm_compute. reflexivity.
  - split; [exact Hh|exact Hr].
Defined.

(** X9. A dish found locally, with AsyncStorage rejecting a read or the
    write: the rejection leaves the effect, which has no handler on this
    branch; the dish and the local meal are set, but [loadingLocal] is
    never cleared and the history is not written, so a screen that was
    loading keeps showing the loader. *)
Theorem local_storage_rejection env i m w eu e :
  getMealById env i = Some m →
  firstStorageFault env = Some e →
  let w' := (run env (resolveEffect env i) w).1 in
  (run env (resolveEffect env i) w).2 = inl e
  ∧ dish (ui w') = Some (localDish m)
  ∧ localMeal (ui w') = Some m
  ∧ loadingLocal (ui w') = loadingLocal (ui w)
  ∧ history w' = history w
  ∧ favorites w' = favorites w
  ∧ (loadingLocal (ui w) = true → render (ui w') eu = inr Loader).
Proof.
  intros Hm Hfault w'. subst w'. rewrite (run_local env i m w Hm).
  destruct (run_checkAndRecord env (m_id m) (m_name m) (thumbnail m)
              (afterLocalSetters m w)) as (Hr & Hh & _ & Hb).
  rewrite Hfault in Hr, Hh.
  destruct (run env (checkAndRecord _ _ _) _) as [w1 r]. simpl in Hr, Hh, Hb.
  subst r. unfold besidesRecord in Hb. simpl in Hb.
  injection Hb as Hfav Hdish Hlocal Hld Hll Hcon.
  simpl. split_and!; try done.
  intros Hloading. unfold render. by rewrite Hlocal, Hll, Hloading.
Qed.

Lemma local_storage_rejection_witness :
  let w' := (run storageDown (resolveEffect storageDown (js "7")) freshWorld).1 in
  (run storageDown (resolveEffect storageDown (js "7")) freshWorld).2
  = inl (Err "storage")
  ∧ render (ui w') initialEnrichUi = inr Loader.
Proof.
  destruct (local_storage_rejection storageDown (js "7") jollof freshWorld
              initialEnrichUi (Err "storage")) as (Hr & _ & _ & _ & _ & _ & Hl).
  - vm_compute. reflexivity.
  - vm_compute. reflexivity.
  - split; [exact Hr|]. apply Hl. vm_compute. reflexivity.
Defined.

(** X10. A remote dish fetched, with AsyncStorage working and no local meal
    set: the effect completes without a word on the console; the dish is
    the fetched one, the history holds the view recorded on the stored
    list, the favorites are untouched, the flag tells whether the dish is
    among them, [loadingDish] is cleared and the screen is the remote one,
    its body given by the cells of the enrichment. *)
Theorem remote_dish_shown env i data w eu :
  getMealById env i = None →
  getMealDetails env i = inr data →
  firstStorageFault env = None →
  localMeal (ui w) = None →
  let w' := (run env (resolveEffect env i) w).1 in
  (run env (resolveEffect env i) w).2 = inr ()
  ∧ dish (ui w') = Some data
  ∧ history w'
    = Some (recordView (dateNow env) (idMeal data) (strMeal data)
              (strMealThumb data) (storedHistory w))
  ∧ favorites w' = favorites w
  ∧ isFavorite (ui w') = isFavoriteIn (idMeal data) (storedFavorites w)
  ∧ console w' = console w
  ∧ render (ui w') eu
    = inr (RemoteDetails data (isFavoriteIn (idMeal data) (storedFavorites w))
             (bodyOf eu)).
Proof.
  intros Hm Hd Hok Hnone w'. subst w'. rewrite (run_remote env i w Hm), Hd.
  destruct (run_checkAndRecord env (idMeal data) (strMeal data) (strMealThumb data)
              (afterRemoteFetch i data w)) as (Hr & Hh & Hf & Hb).
  rewrite Hok in Hr, Hh.
  assert (Hg : getItemFault env FAVORITES_KEY = None).
  { unfold firstStorageFault in Hok. by destruct (getItemFault env FAVORITES_KEY). }
  rewrite Hg in Hf.
  destruct (run env (checkAndRecord _ _ _) _) as [w1 r]. simpl in Hr, Hh, Hf, Hb.
  subst r. unfold besidesRecord in Hb. simpl in Hb.
  injection Hb as Hfav Hdish Hlocal Hld Hll Hcon.
  simpl. split_and!;
    [done|exact Hdish|by rewrite Hh|exact Hfav|by rewrite Hf|exact Hcon|].
  unfold render. simpl. rewrite Hlocal, Hnone. simpl. by rewrite Hdish, Hf.
Qed.

Lemma remote_dish_shown_witness :
  let w' := (run remoteWorks (resolveEffect remoteWorks (js "52959")) returningWorld).1 in
  dish (ui w') = Some threeIngredients
  ∧ render (ui w') initialEnrichUi = inr (RemoteDetails threeIngredients false Spinner).
Proof.
  destruct (remote_dish_shown remoteWorks (js "52959") threeIngredients
              returningWorld initialEnrichUi) as (_ & Hd & _ & _ & _ & _ & Hr).
  - vm_compute. reflexivity.
  - vm_compute. reflexivity.
  - vm_compute. reflexivity.
  - vm_compute. reflexivity.
  - split; [exact Hd|exact Hr].
Defined.

(** X11. A remote dish fetched, with AsyncStorage rejecting a read or the
    write: the rejection is caught by the handler of the fetch and goes to
    [console.error]; the effect completes, the fetched dish stays set and
    [loadingDish] is cleared, the history is not written; with no local
    meal set the screen is the remote one. *)
Theorem remote_storage_rejection env i data w eu e :
  getMealById env i = None →
  getMealDetails env i = inr data →
  firstStorageFault env = Some e →
  let w' := (run env (resolveEffect env i) w).1 in
  (run env (resolveEffect env i) w).2 = inr ()
  ∧ dish (ui w') = Some data
  ∧ console w' = console w ++ [e]
  ∧ history w' = history w
  ∧ favorites w' = favorites w
  ∧ loadingDish (ui w') = false
  ∧ (localMeal (ui w) = None →
     render (ui w') eu = inr (RemoteDetails data (isFavorite (ui w')) (bodyOf eu))).
Proof.
  intros Hm Hd Hfault w'. subst w'. rewrite (run_remote env i w Hm), Hd.
  destruct (run_checkAndRecord env (idMeal data) (strMeal data) (strMealThumb data)
              (afterRemoteFetch i data w)) as (Hr & Hh & _ & Hb).
  rewrite Hfault in Hr, Hh.
  destruct (run env (checkAndRecord _ _ _) _) as [w1 r]. simpl in Hr, Hh, Hb.
  subst r. unfold besidesRecord in Hb. simpl in Hb.
  injection Hb as Hfav Hdish Hlocal Hld Hll Hcon.
  simpl. split_and!;
    [done|exact Hdish|by rewrite Hcon|by rewrite Hh|exact Hfav|done|].
  intros Hnone. unfold render. simpl. rewrite Hlocal, Hnone. simpl.
  by rewrite Hdish.
Qed.

Lemma remote_storage_rejection_witness :
  let w' := (run storageDownRemote (resolveEffect storageDownRemote (js "52959"))
               freshWorld).1 in
  (run storageDownRemote (resolveEffect storageDownRemote (js "52959")) freshWorld).2
  = inr ()
  ∧ dish (ui w') = Some threeIngredients
  ∧ console w' = [Err "storage"]
  ∧ render (ui w') initialEnrichUi = inr (RemoteDetails threeIngredients false Spinner).
Proof.
  destruct (remote_storage_rejection storageDownRemote (js "52959") threeIngredients
              freshWorld initialEnrichUi (Err "storage"))
    as (Hr & Hd & Hc & _ & _ & _ & Hs).
  - vm_compute. reflexivity.
  - vm_compute. reflexivity.
  - vm_compute. reflexivity.
  - split; [exact Hr|]. split; [exact Hd|]. split; [exact Hc|].
    rewrite Hs by (vm_compute; reflexivity). vm_compute. reflexivity.
Defined.

(** X12. When the identifier is not local the effect always completes and
    always clears [loadingDish], whatever the fetch and AsyncStorage
    answer: the handler and the [finally] block see to it. It never sets
    the local meal nor [loadingLocal], and never writes the favorites. *)
Theorem remote_branch_completes env i w :
  getMealById env i = None →
  let w' := (run env (resolveEffect env i) w).1 in
  (run env (resolveEffect env i) w).2 = inr ()
  ∧ loadingDish (ui w') = false
  ∧ localMeal (ui w') = localMeal (ui w)
  ∧ loadingLocal (ui w') = loadingLocal (ui w)
  ∧ favorites w' = favorites w.
Proof.
  intros Hm w'. subst w'. rewrite (run_remote env i w Hm).
  destruct (getMealDetails env i) as [e|data]; [done|].
  destruct (run_checkAndRecord env (idMeal data) (strMeal data) (strMealThumb data)
              (afterRemoteFetch i data w)) as (_ & _ & _ & Hb).
  destruct (run env (checkAndRecord _ _ _) _) as [w1 r]. simpl in Hb.
  unfold besidesRecord in Hb. simpl in Hb.
  injection Hb as Hfav Hdish Hlocal Hld Hll Hcon.
  by destruct r as [e|[]].
Qed.

Lemma remote_branch_completes_witness :
  let w' := (run storageDownRemote (resolveEffect storageDownRemote (js "1"))
               freshWorld).1 in
  (run storageDownRemote (resolveEffect storageDownRemote (js "1")) freshWorld).2
  = inr ()
  ∧ loadingDish (ui w') = false.
Proof.
  destruct (remote_branch_completes storageDownRemote (js "1") freshWorld)
    as (Hr & Hl & _).
  - vm_compute. reflexivity.
  - split; [exact Hr|exact Hl].
Defined.

(** X13. The effect never clears the local meal: when it runs for an
    identifier that is not local in a component whose local meal is set
    and loaded, the local meal stays, the second effect returns at its
    guard (no enrichment is started, even though the fetched dish is set)
    and the screen is still the local one. *)
Theorem local_meal_outlives_remote_view env i w m eu :
  getMealById env i = None →
  localMeal (ui w) = Some m →
  loadingLocal (ui w) = false →
  let w' := (run env (resolveEffect env i) w).1 in
  localMeal (ui w') = Some m
  ∧ enrichEffect (ui w') = None
  ∧ render (ui w') eu = inr (LocalDetails m (isFavorite (ui w'))).
Proof.
  intros Hm Hlocal Hloaded w'.
  assert (H : (localMeal (ui w'), loadingLocal (ui w'))
              = (localMeal (ui w), loadingLocal (ui w))).
  { apply (avoids_keeps (λ w0, (localMeal (ui w0), loadingLocal (ui w0)))
             isLocalSetter).
    - intros X c w0. apply local_cells_kept.
    - unfold resolveEffect. rewrite Hm.
      apply avoids_tryFinally; [|by apply avoids_await].
      apply avoids_tryCatch; [|intros e; by apply avoids_await].
      apply avoids_bind; [by apply avoids_await|]. intros data.
      apply avoids_bind; [by apply avoids_await|]. intros _.
      by apply checkAndRecord_calls. }
  injection H as Hl Hll. rewrite Hlocal in Hl. rewrite Hloaded in Hll.
  split; [done|]. split.
  - unfold enrichEffect. rewrite Hl. by destruct (dish (ui w')).
  - unfold render. by rewrite Hl, Hll.
Qed.

Lemma local_meal_outlives_remote_view_witness :
  let w1 := (run mixedSources (resolveEffect mixedSources (js "7")) freshWorld).1 in
  let w2 := (run mixedSources (resolveEffect mixedSources (js "52959")) w1).1 in
  dish (ui w2) = Some threeIngredients
  ∧ enrichEffect (ui w2) = None
  ∧ render (ui w2) initialEnrichUi = inr (LocalDetails jollof false).
Proof.
  intros w1 w2.
  destruct (local_meal_outlives_remote_view mixedSources (js "52959") w1 jollof
              initialEnrichUi) as (_ & He & Hr).
  - vm_compute. reflexivity.
  - vm_compute. reflexivity.
  - vm_compute. reflexivity.
  - split; [vm_compute; reflexivity|]. split; [exact He|].
    fold w2 in Hr. rewrite Hr. vm_compute. reflexivity.
Defined.

(** X14. After a rejected fetch in a fresh component (no dish, no local
    meal) the component leaves the loader and renders the remote screen
    with [dish] still [null]: reading its thumbnail throws. *)
Theorem remote_failure_screen env i e w eu :
  getMealById env i = None →
  getMealDetails env i = inl e →
  dish (ui w) = None →
  localMeal (ui w) = None →
  render (ui (run env (resolveEffect env i) w).1) eu = inl nullDish.
Proof.
  intros Hm He Hdish Hlocal. rewrite (run_remote env i w Hm), He.
  unfold render. simpl. by rewrite Hlocal, Hdish.
Qed.

Lemma remote_failure_screen_witness :
  render (ui (run bothSources (resolveEffect bothSources (js "9")) freshWorld).1)
    initialEnrichUi
  = inl nullDish.
Proof.
  apply (remote_failure_screen bothSources (js "9") (Err "not found") freshWorld);
    vm_compute; reflexivity.
Defined.

(** ** Favorites, continued *)

(** X15. When AsyncStorage rejects the read or the write of the
    favorites, [toggleFavorite] rejects with that error and changes
    nothing: the stored list and the flag are what they were. *)
Theorem toggleFavorite_rejection env d w e :
  (pressFavorite env d w).2 = inl e →
  favorites (pressFavorite env d w).1 = favorites w
  ∧ isFavorite (ui (pressFavorite env d w).1) = isFavorite (ui w)
  ∧ (getItemFault env FAVORITES_KEY = Some e
     ∨ setItemFault env FAVORITES_KEY = Some e).
Proof.
  pose proof (pressFavorite_outcome env d w) as H. cbv zeta in H.
  destruct (getItemFault env FAVORITES_KEY) as [e1|].
  - destruct H as (-> & ? & ?). intros [= ->]. by eauto.
  - destruct (setItemFault env FAVORITES_KEY) as [e2|].
    + destruct H as (-> & ? & ?). intros [= ->]. by eauto.
    + destruct H as (-> & _). done.
Qed.

Lemma toggleFavorite_rejection_witness :
  favorites (pressFavorite storageDown remoteSeven returningWorld).1
  = favorites returningWorld
  ∧ isFavorite (ui (pressFavorite storageDown remoteSeven returningWorld).1) = false.
Proof.
  destruct (toggleFavorite_rejection storageDown remoteSeven returningWorld
              (Err "storage")) as (Hf & Hi & _).
  - vm_compute. reflexivity.
  - split; [exact Hf|exact Hi].
Defined.

(** X16. A press that completes leaves the favorites of the other dishes
    as they were, in their order, whichever way it toggles; and a dish
    that was not flagged is appended at the end of the stored list. *)
Theorem toggleFavorite_frame env d w v :
  (pressFavorite env d w).2 = inr v →
  filter (λ f, f_idMeal f ≠ idMeal d) (storedFavorites (pressFavorite env d w).1)
  = filter (λ f, f_idMeal f ≠ idMeal d) (storedFavorites w)
  ∧ (isFavorite (ui w) = false →
     storedFavorites (pressFavorite env d w).1
     = storedFavorites w ++ [mkFav (idMeal d) (strMeal d) (strMealThumb d)]).
Proof.
  pose proof (pressFavorite_outcome env d w) as H. cbv zeta in H.
  destruct (getItemFault env FAVORITES_KEY) as [e1|];
    [by destruct H as (-> & _)|].
  destruct (setItemFault env FAVORITES_KEY) as [e2|];
    [by destruct H as (-> & _)|].
  destruct H as (_ & _ & Hst). intros _.
  unfold storedFavorites at 1 3. rewrite Hst.
  destruct (isFavorite (ui w)).
  - split; [|done]. apply list_filter_filter_l. tauto.
  - split; [|done]. rewrite filter_app, filter_cons, filter_nil.
    rewrite decide_False by (intros H; by apply H). apply app_nil_r.
Qed.

Lemma toggleFavorite_frame_witness :
  filter (λ f, f_idMeal f ≠ idMeal threeIngredients)
    (storedFavorites (pressFavorite storageWorks threeIngredients returningWorld).1)
  = [mkFav (js "7") (js "Jollof") (js "jollof.png")]
  ∧ storedFavorites (pressFavorite storageWorks threeIngredients returningWorld).1
    = [mkFav (js "7") (js "Jollof") (js "jollof.png");
       mkFav (js "52959") (js "Baked salmon") (js "s.jpg")].
Proof.
  destruct (toggleFavorite_frame storageWorks threeIngredients returningWorld
              JsUndefined) as (Hf & Ha).
  - vm_compute. reflexivity.
  - split.
    + rewrite Hf. vm_compute. reflexivity.
    + rewrite Ha by (vm_compute; reflexivity). vm_compute. reflexivity.
Defined.

(** X17. With the flag in step with the stored list, a press that
    completes keeps the favorites free of duplicates: a list with one entry
    per identifier stays so. *)
Theorem toggleFavorite_keeps_unique env d w v :
  (pressFavorite env d w).2 = inr v →
  isFavorite (ui w) = isFavoriteIn (idMeal d) (storedFavorites w) →
  NoDup (f_idMeal <$> storedFavorites w) →
  NoDup (f_idMeal <$> storedFavorites (pressFavorite env d w).1).
Proof.
  pose proof (pressFavorite_outcome env d w) as H. cbv zeta in H.
  destruct (getItemFault env FAVORITES_KEY) as [e1|];
    [by destruct H as (-> & _)|].
  destruct (setItemFault env FAVORITES_KEY) as [e2|];
    [by destruct H as (-> & _)|].
  destruct H as (_ & _ & Hst). intros _ Hflag Hnd.
  unfold storedFavorites at 1. rewrite Hst, Hflag.
  destruct (isFavoriteIn (idMeal d) (storedFavorites w)) eqn:Hin.
  - eapply sublist_NoDup; [exact Hnd|]. apply fmap_sublist, sublist_filter.
  - rewrite fmap_app. apply NoDup_app. split; [done|]. split.
    + intros x (f & -> & Hf)%list_elem_of_fmap Hx.
      apply list_elem_of_singleton in Hx. simpl in Hx.
      assert (isFavoriteIn (idMeal d) (storedFavorites w) = true); [|congruence].
      apply existsb_exists. exists f. split; [by apply list_elem_of_In|].
      unfold strictEq. by apply bool_decide_eq_true.
    + apply NoDup_singleton.
Qed.

Lemma toggleFavorite_keeps_unique_witness :
  NoDup (f_idMeal <$>
         storedFavorites (pressFavorite storageWorks threeIngredients returningWorld).1).
Proof.
  apply (toggleFavorite_keeps_unique storageWorks threeIngredients returningWorld
           JsUndefined).
  - vm_compute. reflexivity.
  - vm_compute. reflexivity.
  - apply (bool_decide_unpack _). vm_compute. exact I.
Defined.

(** ** Slot extraction, continued *)

Lemma trimStart_split s :
  ∃ ws, s = ws ++ trimStart s ∧ Forall (λ c, isWhiteSpace c = true) ws.
Proof.
  induction s as [|c s (ws & Hs & Hws)]; [by exists []|]. simpl.
  destruct (isWhiteSpace c) eqn:Hc.
  - exists (c :: ws). split; [by rewrite Hs at 1|by constructor].
  - by exists [].
Qed.

Lemma trimStart_head s c : head (trimStart s) = Some c → isWhiteSpace c = false.
Proof.
  induction s as [|c' s IH]; [done|]. simpl.
  destruct (isWhiteSpace c') eqn:Hc; [done|]. by intros [= <-].
Qed.

Lemma trimStart_fixed s :
  (∀ c, head s = Some c → isWhiteSpace c = false) → trimStart s = s.
Proof. destruct s as [|c s]; [done|]. intros H. simpl. by rewrite (H c). Qed.

Lemma trimStart_nil s : trimStart s = [] ↔ Forall (λ c, isWhiteSpace c = true) s.
Proof.
  induction s as [|c s IH]; [by split; [constructor|]|]. simpl.
  destruct (isWhiteSpace c) eqn:Hc.
  - rewrite IH. split; [by constructor|by inv 1].
  - split; [done|]. inv 1. congruence.
Qed.

Lemma trimEnd_split s :
  ∃ ws, s = trimEnd s ++ ws ∧ Forall (λ c, isWhiteSpace c = true) ws.
Proof.
  destruct (trimStart_split (reverse s)) as (ws & Hs & Hws).
  exists (reverse ws). split; [|by apply Forall_reverse].
  unfold trimEnd. rewrite <- reverse_app, <- Hs. by rewrite reverse_involutive.
Qed.

Lemma trimEnd_last s c : last (trimEnd s) = Some c → isWhiteSpace c = false.
Proof. unfold trimEnd. rewrite last_reverse. apply trimStart_head. Qed.

Lemma trim_head s c : head (trim s) = Some c → isWhiteSpace c = false.
Proof.
  unfold trim. destruct (trimEnd_split (trimStart s)) as (ws & Hs & _).
  intros Hc. apply (trimStart_head s). rewrite Hs.
  apply head_app_Some. by left.
Qed.

Lemma trim_last s c : last (trim s) = Some c → isWhiteSpace c = false.
Proof. apply trimEnd_last. Qed.

Lemma trim_fixed s :
  (∀ c, head s = Some c → isWhiteSpace c = false) →
  (∀ c, last s = Some c → isWhiteSpace c = false) →
  trim s = s.
Proof.
  intros Hh Hl. unfold trim, trimEnd. rewrite (trimStart_fixed s Hh).
  rewrite trimStart_fixed; [apply reverse_involutive|].
  intros c. rewrite head_reverse. apply Hl.
Qed.

Lemma trim_trim s : trim (trim s) = trim s.
Proof. apply trim_fixed; [apply trim_head|apply trim_last]. Qed.

Lemma trim_nil s : trim s = [] ↔ Forall (λ c, isWhiteSpace c = true) s.
Proof.
  rewrite <- trimStart_nil. unfold trim. split.
  - intros Ht. destruct (trimStart s) as [|c t] eqn:E; [done|].
    exfalso. unfold trimEnd in Ht.
    apply (f_equal reverse) in Ht. rewrite reverse_involutive, reverse_nil in Ht.
    apply trimStart_nil in Ht. rewrite Forall_reverse in Ht.
    apply Forall_cons in Ht as [Hc _].
    assert (isWhiteSpace c = false); [|congruence].
    apply (trimStart_head s). by rewrite E.
  - by intros ->.
Qed.

(** X18. A slot is extracted exactly when its name has a code unit that
    is not white space; the measure plays no part in it. *)
Theorem nonBlank_has_visible_unit dish i :
  nonBlank dish i = true
  ↔ ∃ s c, props dish !! ("strIngredient" +:+ pretty i) = Some s
           ∧ c ∈ s ∧ isWhiteSpace c = false.
Proof.
  rewrite nonBlank_iff. split.
  - intros (s & Hs & Ht). exists s.
    destruct (decide (Forall (λ c, isWhiteSpace c = true) s)) as [Hall|Hex].
    + by apply trim_nil in Hall.
    + apply (not_Forall_Exists _) in Hex.
      apply Exists_exists in Hex as (c & Hc & Hw). exists c.
      split; [done|]. split; [done|]. simpl in Hw.
      by destruct (isWhiteSpace c).
  - intros (s & c & Hs & Hc & Hw). exists s. split; [done|].
    rewrite trim_nil. intros Hall.
    eapply Forall_forall in Hall; [|done]. congruence.
Qed.

(** X19. Every extracted name is not empty and has no white space at
    either end, and so is unchanged by trimming again; every extracted
    measure is trimmed too. *)
Theorem extractSlots_trimmed dish sl :
  sl ∈ extractSlots dish →
  s_name sl ≠ []
  ∧ (∀ c, head (s_name sl) = Some c → isWhiteSpace c = false)
  ∧ (∀ c, last (s_name sl) = Some c → isWhiteSpace c = false)
  ∧ trim (s_name sl) = s_name sl
  ∧ (∀ m, s_measure sl = Some m → trim m = m).
Proof.
  unfold extractSlots. rewrite slotLoop_spec, app_nil_l.
  intros (i & -> & [Hi _]%list_elem_of_filter)%list_elem_of_fmap.
  unfold nonBlank in Hi. unfold slotAt, ingredientAt, measureAt in *. simpl.
  destruct (props dish !! ("strIngredient" +:+ pretty i)) as [s|]; [|done].
  simpl in *. destruct (trim s) as [|c t] eqn:Ht; [done|].
  rewrite <- Ht. split_and!.
  - by rewrite Ht.
  - apply trim_head.
  - apply trim_last.
  - apply trim_trim.
  - intros m. destruct (props dish !! ("strMeasure" +:+ pretty i)) as [m'|]; [|done].
    simpl. intros [= <-]. apply trim_trim.
Qed.

Lemma extractSlots_trimmed_witness :
  trim (js "soy sauce") = js "soy sauce".
Proof.
  destruct (extractSlots_trimmed slotsExample (mkSlot (js "soy sauce") None))
    as (_ & _ & _ & Ht & _).
  - apply (list_elem_of_lookup_2 _ 2). vm_compute. reflexivity.
  - exact Ht.
Defined.

Lemma slots_agree d1 d2 :
  (∀ i, 1 ≤ i ≤ 20 →
     ingredientAt d1 i = ingredientAt d2 i ∧ measureAt d1 i = measureAt d2 i) →
  extractSlots d1 = extractSlots d2.
Proof.
  intros H. unfold extractSlots. rewrite !slotLoop_spec, !app_nil_l.
  rewrite (filter_ext_in (λ j, nonBlank d1 j = true) (λ j, nonBlank d2 j = true)).
  - apply list_fmap_ext. intros k j [_ Hj%list_elem_of_In%in_seq]%list_elem_of_lookup_2%list_elem_of_filter.
    unfold slotAt. destruct (H j) as [-> ->]; [lia|done].
  - intros j Hj%list_elem_of_In%in_seq. unfold nonBlank.
    destruct (H j) as [-> _]; [lia|done].
Qed.

(** X20. The extracted slots depend on the dish only through the trimmed
    values of [strIngredient1..20] and [strMeasure1..20]: two dishes that
    agree on these, whatever their white space around the values, their
    other properties and their other fields, yield the same slots. *)
Theorem extractSlots_reads_forty_properties d1 d2 :
  (∀ i, 1 ≤ i ≤ 20 →
     trim <$> props d1 !! ("strIngredient" +:+ pretty i)
     = trim <$> props d2 !! ("strIngredient" +:+ pretty i)
     ∧ trim <$> props d1 !! ("strMeasure" +:+ pretty i)
       = trim <$> props d2 !! ("strMeasure" +:+ pretty i)) →
  extractSlots d1 = extractSlots d2.
Proof. apply slots_agree. Qed.

Lemma extractSlots_reads_forty_properties_witness :
  extractSlots slotsExampleNoisy = extractSlots slotsExample.
Proof.
  apply extractSlots_reads_forty_properties.
  intros i Hi.
  apply (range_Forall
           (λ i, trim <$> props slotsExampleNoisy !! ("strIngredient" +:+ pretty i)
                 = trim <$> props slotsExample !! ("strIngredient" +:+ pretty i)
                 ∧ trim <$> props slotsExampleNoisy !! ("strMeasure" +:+ pretty i)
                   = trim <$> props slotsExample !! ("strMeasure" +:+ pretty i))
           1 20); [clear i Hi|lia].
  repeat (apply Forall_cons; split; [vm_compute; split; reflexivity|]).
  apply Forall_nil. exact I.
Defined.

(** ** Enrichment, continued *)

Lemma callsOf_app k l l' : callsOf k (l ++ l') = callsOf k l ++ callsOf k l'.
Proof. unfold callsOf. by rewrite filter_app, fmap_app. Qed.

Lemma callsOf_one k i c :
  callsOf k [(i, c)] = if decide (i = k) then [c] else [].
Proof. unfold callsOf. rewrite filter_cons. simpl. by case_decide. Qed.

Lemma callsOf_start (ss : list Slot) j k :
  callsOf k (startCalls j (enrichOne <$> ss))
  = match (if decide (j ≤ k) then ss !! (k - j) else None) with
    | Some s => [Invoked (GetNutritionByIngredient (s_name s))]
    | None => []
    end.
Proof.
  revert j. induction ss as [|s l IH]; intros j.
  - simpl. by case_decide.
  - change (startCalls j (enrichOne <$> s :: l))
      with ((j, Invoked (GetNutritionByIngredient (s_name s)))
            :: startCalls (S j) (enrichOne <$> l)).
    unfold callsOf in *. rewrite filter_cons. simpl.
    destruct (decide (j = k)) as [->|Hne].
    + rewrite fmap_cons, IH. rewrite decide_False by lia.
      rewrite decide_True by lia. by rewrite Nat.sub_diag.
    + rewrite IH. destruct (decide (j ≤ k)) as [Hle|Hgt].
      * rewrite decide_True by lia.
        replace (k - j) with (S (k - S j)) by lia. done.
      * by rewrite decide_False by lia.
Qed.

Section Accounting.

Variable answer : Oracle.
Variable ss : list Slot.

Lemma iter_after_first a s c :
  1 ≤ c →
  pendingCall (Nat.iter c (respond a) (enrichOne s))
  ≠ Some (Invoked (GetNutritionByIngredient (s_name s))).
Proof.
  destruct c as [|c]; [lia|]. intros _.
  change (Nat.iter (S c) ?f ?x) with (f (Nat.iter c f x)).
  apply respond_later, iter_phase.
Qed.

Lemma issued_calls sched k :
  callsOf k (issued (runSchedule answer sched (startAll (enrichOne <$> ss))))
  = match ss !! k with
    | None => []
    | Some s =>
        Invoked (GetNutritionByIngredient (s_name s))
        :: (if (0 <? served k sched)
               && fulfils (answer k _ (GetNutritionByIngredient (s_name s)))
            then [Invoked (GetAllergenFlags (s_name s))]
            else [])
    end.
Proof.
  induction sched as [|i sched IH] using rev_ind.
  { simpl. rewrite callsOf_start, decide_True, Nat.sub_0_r by lia.
    by destruct (ss !! k). }
  rewrite runSchedule_snoc.
  set (st := runSchedule answer sched (startAll (enrichOne <$> ss))) in *.
  destruct (ss !! i) as [s|] eqn:Hi.
  2:{ rewrite deliver_idle by by apply task_none. rewrite IH.
      destruct (ss !! k) as [s'|] eqn:Hk; [|done].
      rewrite served_snoc. case_decide; [congruence|]. by rewrite Nat.add_0_r. }
  pose proof (task_at answer ss sched i s Hi) as Hp. fold st in Hp.
  rewrite (deliver_step _ _ _ _ Hp).
  pose proof (iter_phase (answer i) s (served i sched)) as Hphase.
  apply phase_pending in Hphase as [[Hc He]|[[Hc (nut & Hn & He)]|[Hc He]]];
    rewrite Hc.
  - (* the function awaits its nutrition: it was never served *)
    assert (Hzero : served i sched = 0).
    { destruct (served i sched) as [|c] eqn:Hs; [done|].
      exfalso. eapply (iter_after_first (answer i) s (S c)); [lia|done]. }
    cbv zeta. rewrite He, respond_enrichOne. simpl issued.
    rewrite callsOf_app, IH. destruct (ss !! k) as [s'|] eqn:Hk.
    + rewrite served_snoc. destruct (decide (i = k)) as [->|Hne].
      * rewrite Hi in Hk. injection Hk as <-. rewrite Hzero. simpl.
        destruct (answer k _ (GetNutritionByIngredient (s_name s))) as [e|nut];
          simpl; [done|].
        by rewrite callsOf_one, decide_True.
      * rewrite Nat.add_0_r.
        destruct (answer i _ (GetNutritionByIngredient (s_name s))) as [e|nut];
          simpl; rewrite ?app_nil_r; [done|].
        by rewrite callsOf_one, decide_False, app_nil_r.
    + destruct (answer i _ (GetNutritionByIngredient (s_name s))) as [e|nut];
        simpl; [done|].
      rewrite callsOf_one, decide_False; [done|]. intros ->. congruence.
  - (* the function awaits its allergens: it was served once *)
    assert (Hpos : 1 ≤ served i sched).
    { destruct (served i sched) as [|c] eqn:Hs; [|lia]. by simpl in He. }
    cbv zeta. rewrite He, respond_afterNutrition. simpl issued.
    rewrite app_nil_r, IH. destruct (ss !! k) as [s'|] eqn:Hk; [|done].
    rewrite served_snoc. case_decide as Hik; [|by rewrite Nat.add_0_r].
    subst k. replace (0 <? served i sched + 1) with true
      by (symmetry; apply Nat.ltb_lt; lia).
    by replace (0 <? served i sched) with true
      by (symmetry; apply Nat.ltb_lt; lia).
  - (* the function has returned *)
    rewrite IH. destruct (ss !! k) as [s'|] eqn:Hk; [|done].
    rewrite served_snoc. case_decide as Hik; [|by rewrite Nat.add_0_r].
    subst k. rewrite Hi in Hk. injection Hk as <-.
    assert (Hpos : 1 ≤ served i sched).
    { destruct (served i sched) as [|c] eqn:Hs; [|lia]. by simpl in He. }
    replace (0 <? served i sched + 1) with true
      by (symmetry; apply Nat.ltb_lt; lia).
    by replace (0 <? served i sched) with true
      by (symmetry; apply Nat.ltb_lt; lia).
Qed.

Lemma settled_stays sched r i :
  outcome (runSchedule answer sched (startAll (enrichOne <$> ss))) = Some r →
  deliver answer i (runSchedule answer sched (startAll (enrichOne <$> ss)))
  = runSchedule answer sched (startAll (enrichOne <$> ss)).
Proof.
  intros Hr. destruct (outcome_result answer ss sched r Hr) as [_ Hidle].
  specialize (Hidle i). unfold inFlight in Hidle.
  destruct (tasks _ !! i) as [p|] eqn:Hp; [|by apply deliver_idle].
  rewrite (deliver_step _ _ _ p Hp). simpl in Hidle. by rewrite Hidle.
Qed.

End Accounting.

(** X21. The calls of the enrichment, function by function, under every
    schedule: the function of a slot issues the nutrition call of its name
    once, when it is started, and after it the allergen call of its name
    once, exactly when it was served its nutrition and that answer was not
    a rejection; no other call is ever issued. *)
Theorem enrichment_calls_per_slot (dish : Dish) (answer : Oracle)
    (sched : list nat) (k : nat) :
  callsOf k (issued (runSchedule answer sched
                       (startAll (enrichOne <$> extractSlots dish))))
  = match extractSlots dish !! k with
    | None => []
    | Some s =>
        Invoked (GetNutritionByIngredient (s_name s))
        :: (if (0 <? served k sched)
               && fulfils (answer k _ (GetNutritionByIngredient (s_name s)))
            then [Invoked (GetAllergenFlags (s_name s))]
            else [])
    end.
Proof. apply issued_calls. Qed.

(** X22. The value of [Promise.all] does not depend on the order in which
    the answers arrive: two schedules under which it is settled give the
    same value; and once it is settled a further delivery changes nothing. *)
Theorem enrichment_schedule_independent (dish : Dish) (answer : Oracle)
    (sched1 sched2 : list nat) r1 r2 :
  outcome (runSchedule answer sched1 (startAll (enrichOne <$> extractSlots dish)))
  = Some r1 →
  outcome (runSchedule answer sched2 (startAll (enrichOne <$> extractSlots dish)))
  = Some r2 →
  r1 = r2
  ∧ ∀ i, deliver answer i
           (runSchedule answer sched1 (startAll (enrichOne <$> extractSlots dish)))
         = runSchedule answer sched1 (startAll (enrichOne <$> extractSlots dish)).
Proof.
  intros H1 H2. split.
  - destruct (outcome_result answer _ sched1 r1 H1) as [-> _].
    by destruct (outcome_result answer _ sched2 r2 H2) as [-> _].
  - intros i. by eapply settled_stays.
Qed.

Lemma enrichment_schedule_independent_witness :
  outcome (runSchedule secondFails [0; 1; 2; 0; 1; 2]
             (startAll (enrichOne <$> extractSlots threeIngredients)))
  = outcome (runSchedule secondFails [2; 2; 1; 0; 1; 0; 1]
               (startAll (enrichOne <$> extractSlots threeIngredients))).
Proof.
  destruct (outcome (runSchedule secondFails [0; 1; 2; 0; 1; 2]
             (startAll (enrichOne <$> extractSlots threeIngredients))))
    as [r1|] eqn:H1; [|vm_compute in H1; discriminate H1].
  destruct (outcome (runSchedule secondFails [2; 2; 1; 0; 1; 0; 1]
             (startAll (enrichOne <$> extractSlots threeIngredients))))
    as [r2|] eqn:H2; [|vm_compute in H2; discriminate H2].
  f_equal.
  exact (proj1 (enrichment_schedule_independent threeIngredients secondFails
                  [0; 1; 2; 0; 1; 2] [2; 2; 1; 0; 1; 0; 1] r1 r2 H1 H2)).
Defined.

(** X23. A remote dish without a non-blank ingredient name: the
    enrichment issues no call, [Promise.all] is fulfilled with the empty
    list as soon as it is started, whatever is delivered later changes
    nothing, and the screen shows "No ingredient data". *)
Theorem enrichment_nothing_to_fetch (dish : Dish) (answer : Oracle)
    (sched : list nat) (eu : EnrichUi) :
  extractSlots dish = [] →
  let st := startAll (enrichOne <$> extractSlots dish) in
  issued st = []
  ∧ outcome st = Some (inr [])
  ∧ runSchedule answer sched st = st
  ∧ bodyOf (finishEnrichment (outcome st) eu) = NoIngredientData.
Proof.
  intros ->. simpl. split_and!; try done.
  induction sched as [|i sched IH] using rev_ind; [done|].
  by rewrite runSchedule_snoc, IH.
Qed.

Lemma enrichment_nothing_to_fetch_witness :
  let st := startAll (enrichOne <$> extractSlots noIngredients) in
  issued st = []
  ∧ bodyOf (finishEnrichment (outcome st) initialEnrichUi) = NoIngredientData.
Proof.
  destruct (enrichment_nothing_to_fetch noIngredients secondFails [0; 1]
              initialEnrichUi) as (Hi & _ & _ & Hb).
  - vm_compute. reflexivity.
  - split; [exact Hi|exact Hb].
Defined.

(** X24. A remote dish with ingredients: while [Promise.all] is pending
    the cells of the second effect are as they were (the spinner of a
    fresh screen stays); once every function was served twice the screen
    shows one row per extracted slot, in slot order, each with the name
    and measure of its slot. *)
Theorem enrichment_rows (dish : Dish) (answer : Oracle) (sched : list nat)
    (eu : EnrichUi) :
  extractSlots dish ≠ [] →
  let st := runSchedule answer sched (startAll (enrichOne <$> extractSlots dish)) in
  (outcome st = None → finishEnrichment (outcome st) eu = eu)
  ∧ ((∀ k, k < length (extractSlots dish) → 2 ≤ served k sched) →
     ∃ rows,
       bodyOf (finishEnrichment (outcome st) eu) = Rows rows
       ∧ length rows = length (extractSlots dish)
       ∧ ∀ k s, extractSlots dish !! k = Some s →
           ∃ row, rows !! k = Some row
                  ∧ r_name row = s_name s ∧ r_measure row = s_measure s).
Proof.
  intros Hne st. split; [by intros ->|].
  intros Hserved. subst st.
  rewrite (outcome_complete answer _ sched Hserved).
  exists (rowOf <$> enrichedAll answer (extractSlots dish)).
  assert (Hlen : length (enrichedAll answer (extractSlots dish))
                 = length (extractSlots dish))
    by apply length_imap.
  split.
  - unfold bodyOf, finishEnrichment. cbn [loadingNutrition ingredients].
    rewrite Hlen.
    assert (Hpos : (0 <? length (extractSlots dish)) = true).
    { apply Nat.ltb_lt. destruct (extractSlots dish); [done|]. simpl. lia. }
    rewrite Hpos. reflexivity.
  - split; [by rewrite length_fmap|].
    intros k s Hk. exists (rowOf (enriched (answer k) s)). split.
    + unfold enrichedAll. by rewrite list_lookup_fmap, list_lookup_imap, Hk.
    + apply enriched_fields.
Qed.

Lemma enrichment_rows_witness :
  ∃ rows,
    bodyOf (finishEnrichment
              (outcome (runSchedule secondFails [0; 1; 2; 0; 1; 2]
                          (startAll (enrichOne <$> extractSlots threeIngredients))))
              initialEnrichUi)
    = Rows rows
    ∧ length rows = 3.
Proof.
  destruct (enrichment_rows threeIngredients secondFails [0; 1; 2; 0; 1; 2]
              initialEnrichUi) as (_ & H).
  - vm_compute. discriminate.
  - destruct H as (rows & Hb & Hl & _).
    + intros k Hk. destruct k as [|[|[|k]]]; vm_compute; vm_compute in Hk; lia.
    + exists rows. split; [exact Hb|]. rewrite Hl. vm_compute. reflexivity.
Defined.

(** ** The allergen labels *)

Lemma startsWith_app (pattern t : jsstring) : startsWith pattern (pattern ++ t) = true.
Proof. unfold startsWith. apply bool_decide_eq_true. apply take_app_length. Qed.

Lemma replace_cons (pattern replacement : jsstring) c s :
  replace pattern replacement (c :: s)
  = if startsWith pattern (c :: s)
    then replacement ++ drop (length pattern) (c :: s)
    else c :: replace pattern replacement s.
Proof. reflexivity. Qed.

Lemma replace_nil (pattern replacement : jsstring) :
  replace pattern replacement []
  = if startsWith pattern [] then replacement ++ drop (length pattern) [] else [].
Proof. reflexivity. Qed.

Lemma replace_found (pattern replacement t : jsstring) :
  replace pattern replacement (pattern ++ t) = replacement ++ t.
Proof.
  destruct (pattern ++ t) as [|c u] eqn:E.
  - rewrite replace_nil. apply app_eq_nil in E as [-> ->]. by rewrite drop_nil.
  - rewrite replace_cons, <- E, startsWith_app. by rewrite drop_app_length.
Qed.

Lemma replace_first (pattern replacement before t : jsstring) :
  (∀ k, k < length before →
        startsWith pattern (drop k (before ++ pattern ++ t)) = false) →
  replace pattern replacement (before ++ pattern ++ t)
  = before ++ replacement ++ t.
Proof.
  induction before as [|c before IH]; intros Hfirst.
  - apply (replace_found pattern replacement t).
  - pose proof (Hfirst 0 ltac:(simpl; lia)) as H0.
    change (drop 0 ?l) with l in H0.
    change ((c :: before) ++ ?l) with (c :: before ++ l) in *.
    rewrite replace_cons, H0. f_equal. apply IH.
    intros k Hk. apply (Hfirst (S k)). simpl. lia.
Qed.

Lemma replace_absent (pattern replacement s : jsstring) :
  (∀ k, startsWith pattern (drop k s) = false) →
  replace pattern replacement s = s.
Proof.
  induction s as [|c s IH]; intros Habs.
  - pose proof (Habs 0) as H0. change (drop 0 ?l) with l in H0.
    by rewrite replace_nil, H0.
  - pose proof (Habs 0) as H0. change (drop 0 ?l) with l in H0.
    rewrite replace_cons, H0. f_equal. apply IH.
    intros k. apply (Habs (S k)).
Qed.

(** X25. The label shown for an allergen tag is the tag without its first
    ["en:"], wherever that is: a tag that begins with it loses the prefix
    (a later ["en:"] stays), and a tag that does not contain it is shown
    as it is. *)
Theorem allergenLabel_spec :
  (∀ t, allergenLabel (js "en:" ++ t) = t)
  ∧ (∀ before t,
       (∀ k, k < length before →
             startsWith (js "en:") (drop k (before ++ js "en:" ++ t)) = false) →
       allergenLabel (before ++ js "en:" ++ t) = before ++ t)
  ∧ (∀ a, (∀ k, startsWith (js "en:") (drop k a) = false) → allergenLabel a = a).
Proof.
  unfold allergenLabel. split_and!.
  - intros t. apply (replace_first (js "en:") [] [] t). simpl. lia.
  - intros before t H. by rewrite replace_first.
  - intros a H. by apply replace_absent.
Qed.
